(** * go-osc: a shallow embedding of the OSC codec, dispatcher and server loop

    The development follows the Go sources of the [osc] package:
    [osc.go] / [packet.go] / [message.go] (padded strings, blobs, message and
    bundle decoding, message encoding) and the server file ([Serve],
    [ReceivePacket], [OSCDispatcher]).

    Go values are represented as follows.
    - [int] is a 64-bit two's complement integer: a [Z] together with the
      wrap-around [wrap_int] applied after every arithmetic operation.
    - [byte] is [ascii] (eight bits); a [[]byte] is a [list ascii]; a Go
      [string] is a [string] (Go strings are arbitrary byte sequences).
    - [float32] / [float64] values are identified with their IEEE-754 bit
      patterns ([math.Float32bits] is a bijection the codec relies on).
    - a function returning [(T, error)] returns an [outcome T]; a run-time
      panic is a third constructor of [outcome].
    - the [*bufio.Reader], and the [*int] cursor [start] are threaded
      explicitly through a state monad. *)

From Stdlib Require Import ZArith Ascii String List Bool Lia.
From stdpp Require Import gmap strings list.
Import ListNotations.

Local Open Scope Z_scope.

(** ** Go run-time values *)

Definition byte := ascii.
Definition bytes := list ascii.

Definition NUL : byte := "000"%char.

(** [int] on a 64-bit platform. *)
Definition MaxInt : Z := 2 ^ 63 - 1.
Definition MinInt : Z := - 2 ^ 63.
Definition wrap_int (z : Z) : Z := (z + 2 ^ 63) mod 2 ^ 64 - 2 ^ 63.
Definition int_add (a b : Z) : Z := wrap_int (a + b).
Definition int_sub (a b : Z) : Z := wrap_int (a - b).
Definition int_mul (a b : Z) : Z := wrap_int (a * b).
(** Go's [/] truncates toward zero. *)
Definition int_div (a b : Z) : Z := wrap_int (Z.quot a b).

(** [len] of a string and of a byte slice, as an [int]. *)
Definition len (s : string) : Z := Z.of_nat (String.length s).
Definition blen (b : bytes) : Z := Z.of_nat (List.length b).

(** [make([]byte, n)]: [n] zero bytes (a negative [n] panics, see callers). *)
Definition make (n : Z) : bytes := repeat NUL (Z.to_nat n).

(** The error values the package can return.  Messages built with
    [errors.New] / [fmt.Errorf] are kept as constructors carrying the
    formatted operand. *)
Inductive error : Type :=
| EOF                                   (* io.EOF *)
| ErrUnexpectedEOF                      (* io.ErrUnexpectedEOF *)
| ErrInvalidType                        (* "binary.Read: invalid type *int" *)
| ErrTypeTagString                      (* "unsupported type tag string" *)
| ErrTypeTag (c : byte)                 (* "unsupported type tag: %c" *)
| ErrBundleTag (s : string)             (* "Invalid bundle start tag: %s" *)
| ErrPacketType                         (* "Unsupported OSC packet type: ..." *)
| ErrUnsupportedType                    (* "OSC - unsupported type: %T" *)
| ErrAddressChar (c : byte)             (* "OSC Address string may not contain ..." *)
| ErrAddressExists (a : string)         (* "OSC address %q exists already" *)
| ErrNet (temporary : bool).            (* a net.Error from the socket *)

(** Run-time panics reachable from the modelled code. *)
Inductive panic : Type :=
| IndexOutOfRange          (* s[i] with i >= len(s) *)
| NilDereference           (* method call on a nil interface value *)
| MakeLenOutOfRange        (* make([]byte, n) with n < 0 *)
| RegexpSyntax             (* regexp.MustCompile on an invalid expression *)
| StackExhausted.          (* recursion bound of the model, see [readPacket] *)

Inductive outcome (A : Type) : Type :=
| Ok (a : A)
| Err (e : error)
| Panic (p : panic).
Arguments Ok {A} a.
Arguments Err {A} e.
Arguments Panic {A} p.

(** State-and-failure monad: the state is whatever the Go function mutates
    through its pointer arguments. *)
Definition M (S A : Type) : Type := S -> outcome A * S.

Definition ret {S A : Type} (a : A) : M S A := fun s => (Ok a, s).
Definition fail {S A : Type} (e : error) : M S A := fun s => (Err e, s).
Definition throw {S A : Type} (p : panic) : M S A := fun s => (Panic p, s).
Definition bind {S A B : Type} (m : M S A) (k : A -> M S B) : M S B :=
  fun s =>
    match m s with
    | (Ok a, s') => k a s'
    | (Err e, s') => (Err e, s')
    | (Panic p, s') => (Panic p, s')
    end.

Declare Scope go_scope.
Delimit Scope go_scope with go.
Notation "'let*' x := m 'in' k" := (bind m (fun x => k))
  (at level 10, x name, m at level 100, k at level 200) : go_scope.
Notation "'let*' ' p := m 'in' k" := (bind m (fun x => match x with p => k end))
  (at level 10, p strict pattern, m at level 100, k at level 200) : go_scope.
Local Open Scope go_scope.

(** ** [bufio.Reader] over an in-memory [bytes.Buffer]

    A reader is the pair of the bytes already pulled into the 4096-byte
    internal buffer but not yet consumed ([buffered]) and the bytes still in
    the underlying [bytes.Buffer] ([source]).  The underlying buffer returns
    [io.EOF] exactly when it is empty, and the sticky error of the reader is
    always cleared ([readErr]) before a method returns, so it is not part of
    the state. *)
Module bufio.

Definition defaultBufSize : nat := 4096.

Record Reader : Type := mkReader { buffered : bytes; source : bytes }.

(** [bufio.NewReader(bytes.NewBuffer(data))] *)
Definition NewReader (data : bytes) : Reader := mkReader [] data.

(** Bytes not yet consumed, in stream order. *)
Definition remaining (r : Reader) : bytes := buffered r ++ source r.

(** [b.fill()]: one read from the underlying buffer into the free space. *)
Definition fill (r : Reader) : Reader :=
  let n := (defaultBufSize - List.length (buffered r))%nat in
  mkReader (buffered r ++ firstn n (source r)) (skipn n (source r)).

(** [bytes.IndexByte] *)
Fixpoint IndexByte (b : bytes) (c : byte) : option nat :=
  match b with
  | [] => None
  | x :: b' => if Ascii.eqb x c then Some O
               else match IndexByte b' c with
                    | Some i => Some (S i)
                    | None => None
                    end
  end.

(** [b.Peek(1)] *)
Definition Peek1 : M Reader byte := fun r =>
  match buffered r with
  | c :: _ => (Ok c, r)
  | [] =>
      match source r with
      | [] => (Err EOF, r)
      | c :: _ => (Ok c, fill r)
      end
  end.

(** [b.Read(p)] with [len(p) = n]: returns the bytes copied into [p].
    At most one read of the underlying buffer; a short read is not an
    error. *)
Definition Read (n : nat) : M Reader bytes := fun r =>
  match n with
  | O => (Ok [], r)
  | _ =>
      match buffered r with
      | _ :: _ => (Ok (firstn n (buffered r)), mkReader (skipn n (buffered r)) (source r))
      | [] =>
          match source r with
          | [] => (Err EOF, r)
          | _ :: _ =>
              if (defaultBufSize <=? n)%nat
              then (Ok (firstn n (source r)), mkReader [] (skipn n (source r)))
              else let r' := fill r in
                   (Ok (firstn n (buffered r')),
                    mkReader (skipn n (buffered r')) (source r'))
          end
      end
  end.

(** [b.ReadString(delim)]: the loop of [ReadSlice] / [collectFragments].
    [acc] holds the full buffers collected so far; each round either finds
    the delimiter in the buffer, reports [io.EOF] with what was read, or
    (after flushing a full buffer into [acc]) fills the buffer again.  The
    underlying buffer shrinks on every fill; [fuel] bounds the rounds. *)
Fixpoint ReadString_loop (fuel : nat) (delim : byte) (acc : bytes)
    (r : Reader) : (bytes * option error) * Reader :=
  match IndexByte (buffered r) delim with
  | Some i =>
      ((acc ++ firstn (S i) (buffered r), None),
       mkReader (skipn (S i) (buffered r)) (source r))
  | None =>
      match source r, fuel with
      | _ :: _, S fuel' =>
          if (defaultBufSize <=? List.length (buffered r))%nat
          then ReadString_loop fuel' delim (acc ++ buffered r)
                 (fill (mkReader [] (source r)))
          else ReadString_loop fuel' delim acc (fill r)
      | _, _ => ((acc ++ buffered r, Some EOF), mkReader [] (source r))
      end
  end.

(** Returns the string read (delimiter included) and the error; like the
    Go method, data read before an error is returned with it. *)
Definition ReadString (delim : byte) (r : Reader) : (bytes * option error) * Reader :=
  ReadString_loop (List.length (source r)) delim [] r.

End bufio.

(** [io.ReadFull(r, buf)] with [len(buf) = n]: repeated [Read] until [n]
    bytes are there.  Every successful [Read] of a non-empty slice returns at
    least one byte, so [n] rounds are enough. *)
Module io.

Fixpoint ReadFull_loop (fuel : nat) (want : nat) (acc : bytes) : M bufio.Reader bytes :=
  fun r =>
    match want, fuel with
    | O, _ => (Ok acc, r)
    | _, O => (Ok acc, r)
    | _, S fuel' =>
        match bufio.Read want r with
        | (Ok bs, r') => ReadFull_loop fuel' (want - List.length bs)%nat (acc ++ bs) r'
        | (Err e, r') =>
            match acc, e with
            | _ :: _, EOF => (Err ErrUnexpectedEOF, r')
            | _, _ => (Err e, r')
            end
        | (Panic p, r') => (Panic p, r')
        end
    end.

Definition ReadFull (n : nat) : M bufio.Reader bytes := ReadFull_loop n n [].

End io.

(** ** [encoding/binary], big endian *)
Module binary.

(** The Go types the package passes to [binary.Read] / [binary.Write]. *)
Inductive kind : Type := Int32 | Int64 | Uint64 | Float32 | Float64 | Int.

(** [dataSize]: only fixed-size types have one; the platform-sized [int]
    has none. *)
Definition dataSize (k : kind) : option nat :=
  match k with
  | Int32 | Float32 => Some 4%nat
  | Int64 | Uint64 | Float64 => Some 8%nat
  | Int => None
  end.

(** Unsigned big-endian value of a byte sequence. *)
Definition be_unsigned (b : bytes) : Z :=
  fold_left (fun acc c => acc * 256 + Z.of_N (N_of_ascii c)) b 0.

(** Two's complement reading of an unsigned value on [8 * n] bits. *)
Definition to_signed (n : nat) (u : Z) : Z :=
  if u <? 2 ^ (8 * Z.of_nat n - 1) then u else u - 2 ^ (8 * Z.of_nat n).

(** The value stored through the pointer: signed kinds are sign-extended,
    [uint64] and the floats (bit patterns) are unsigned. *)
Definition decode (k : kind) (b : bytes) : Z :=
  match k with
  | Int32 | Int64 | Int => to_signed (List.length b) (be_unsigned b)
  | Uint64 | Float32 | Float64 => be_unsigned b
  end.

(** Big-endian bytes of the low [8 * n] bits of [v]. *)
Fixpoint be_bytes (n : nat) (v : Z) : bytes :=
  match n with
  | O => []
  | S n' => be_bytes n' (v / 256) ++ [ascii_of_N (Z.to_N (v mod 256))]
  end.

(** [binary.Read(reader, binary.BigEndian, &x)] for [x] of kind [k]:
    a type without a fixed size is rejected before anything is read. *)
Definition Read (k : kind) : M bufio.Reader Z :=
  match dataSize k with
  | None => fail ErrInvalidType
  | Some n => let* bs := io.ReadFull n in ret (decode k bs)
  end.

(** [binary.Write(buf, binary.BigEndian, x)] on a [bytes.Buffer]: the bytes
    appended ([None] for a type without a fixed size). *)
Definition Write (k : kind) (v : Z) : option bytes :=
  match dataSize k with
  | None => None
  | Some n => Some (be_bytes n v)
  end.

End binary.

(** ** Padded strings (osc.go / packet.go) *)

(** [padBytesNeeded] determines how many bytes are needed to fill up to the
    next 4 byte length. *)
Definition padBytesNeeded (elementLen : Z) : Z :=
  int_sub (int_mul 4 (int_add (int_div elementLen 4) 1)) elementLen.

(** [writePaddedString(str, buf)]: the new contents of the buffer and the
    returned count.  Writes to a [bytes.Buffer] never return an error, so the
    error returns of the Go function are unreachable.  The [n] assigned inside
    the [if] block is a new variable of that block: the outer [n] stays
    [len(str)]. *)
Definition writePaddedString (str : string) (buf : bytes) : bytes * Z :=
  let buf := buf ++ list_ascii_of_string str in
  let n := len str in
  let numPadBytes := padBytesNeeded (len str) in
  if 0 <? numPadBytes then
    let padBytes := make numPadBytes in
    let buf := buf ++ padBytes in
    let n' := blen padBytes in
    let numPadBytes := n' in
    (buf, int_add n numPadBytes)
  else (buf, int_add n numPadBytes).

(** [readPaddedString(reader)]: the string and the number of bytes it stood
    for.  [str[:len(str)-1]] drops the delimiter. *)
Definition readPaddedString : M bufio.Reader (string * Z) := fun reader =>
  match bufio.ReadString NUL reader with
  | ((_, Some err), reader) => (Err err, reader)
  | ((str, None), reader) =>
      let n := blen str in
      let str := removelast str in
      let padLen := int_sub (padBytesNeeded (blen str)) 1 in
      if 0 <? padLen then
        let n := int_add n padLen in
        match bufio.Read (Z.to_nat padLen) reader with
        | (Ok _, reader) => (Ok (string_of_list_ascii str, n), reader)
        | (Err err, reader) => (Err err, reader)
        | (Panic p, reader) => (Panic p, reader)
        end
      else (Ok (string_of_list_ascii str, n), reader)
  end.

(** ** Blobs (osc.go) *)

(** [int32(x)]: conversion of an [int] to 32 bits. *)
Definition wrap_int32 (z : Z) : Z := (z + 2 ^ 31) mod 2 ^ 32 - 2 ^ 31.

(** [writeBlob(data, buf)]: the new contents of the buffer and the count. *)
Definition writeBlob (data : bytes) (buf : bytes) : bytes * Z :=
  let dlen := wrap_int32 (blen data) in
  let buf := buf ++ binary.be_bytes 4 dlen in
  let buf := buf ++ data in
  let numPadBytes := padBytesNeeded (blen data) in
  if 0 <? numPadBytes then
    let padBytes := make numPadBytes in
    let buf := buf ++ padBytes in
    let numPadBytes := blen padBytes in
    (buf, int_add (int_add 4 (blen data)) numPadBytes)
  else (buf, int_add (int_add 4 (blen data)) numPadBytes).

(** [readBlob(reader)].  [blobLen] is declared [int]; [blob] keeps its
    length [blobLen] whatever [reader.Read] delivers. *)
Definition readBlob : M bufio.Reader (bytes * Z) :=
  let* blobLen := binary.Read binary.Int in
  let n := int_add 4 blobLen in
  if blobLen <? 0 then throw MakeLenOutOfRange else
  let* got := bufio.Read (Z.to_nat blobLen) in
  let blob := got ++ make (blobLen - blen got) in
  let numPadBytes := padBytesNeeded blobLen in
  if 0 <? numPadBytes then
    let n := int_add n numPadBytes in
    let* _ := bufio.Read (Z.to_nat numPadBytes) in
    ret (blob, n)
  else ret (blob, n).

(** ** Messages (message.go) *)

(** Modelled from the spec: the source of [Timetag] is not part of the
    sources at hand.  Following the data model of the specification, a
    Timetag is its 64-bit unsigned wire value, [ToByteArray] is its 8-byte
    big-endian encoding, and a Timetag built from a raw wire value
    ([NewTimetagFromTimetag], [NewBundle(timetagToTime(v))]) carries that
    value. *)
Record Timetag : Type := mkTimetag { timeTag : Z }.
Definition ToByteArray (t : Timetag) : bytes := binary.be_bytes 8 (timeTag t).
Definition NewTimetagFromTimetag (v : Z) : Timetag := mkTimetag v.

(** The dynamic type and value of one [interface{}] argument.  [AOther]
    stands for a value of any type the codec has no case for. *)
Inductive Argument : Type :=
| ANil
| ABool (b : bool)
| AInt32 (i : Z)
| AInt64 (i : Z)
| AFloat32 (bits : Z)
| AFloat64 (bits : Z)
| AString (s : string)
| ABlob (b : bytes)
| ATimetag (t : Timetag)
| AOther.

(** [net.Addr] values are kept as their textual form; [None] is [nil]. *)
Definition NetAddr := string.

Record Message : Type := mkMessage {
  Address : string;
  Arguments : list Argument;
  addr : option NetAddr
}.

Definition NewMessage (a : string) (args : list Argument) : Message :=
  mkMessage a args None.

Definition Append (msg : Message) (args : list Argument) : Message :=
  mkMessage (Address msg) (Arguments msg ++ args) (addr msg).

Definition SetAddr (msg : Message) (a : NetAddr) : Message :=
  mkMessage (Address msg) (Arguments msg) (Some a).

(** The loop of [MarshalBinary] over [msg.Arguments]: [typetags] and
    [payload] are the two buffers it fills. *)
Fixpoint MarshalBinary_loop (args : list Argument) (typetags payload : bytes)
    : outcome (bytes * bytes) :=
  match args with
  | [] => Ok (typetags, payload)
  | arg :: rest =>
      match arg with
      | AOther => Err ErrUnsupportedType
      | ABool true => MarshalBinary_loop rest (typetags ++ ["T"%char]) payload
      | ABool false => MarshalBinary_loop rest (typetags ++ ["F"%char]) payload
      | ANil => MarshalBinary_loop rest (typetags ++ ["N"%char]) payload
      | AInt32 t =>
          match binary.Write binary.Int32 t with
          | Some b => MarshalBinary_loop rest (typetags ++ ["i"%char]) (payload ++ b)
          | None => Err ErrInvalidType
          end
      | AFloat32 t =>
          match binary.Write binary.Float32 t with
          | Some b => MarshalBinary_loop rest (typetags ++ ["f"%char]) (payload ++ b)
          | None => Err ErrInvalidType
          end
      | AString t =>
          MarshalBinary_loop rest (typetags ++ ["s"%char]) (fst (writePaddedString t payload))
      | ABlob t =>
          MarshalBinary_loop rest (typetags ++ ["b"%char]) (fst (writeBlob t payload))
      | AInt64 t =>
          match binary.Write binary.Int64 t with
          | Some b => MarshalBinary_loop rest (typetags ++ ["h"%char]) (payload ++ b)
          | None => Err ErrInvalidType
          end
      | AFloat64 t =>
          match binary.Write binary.Float64 t with
          | Some b => MarshalBinary_loop rest (typetags ++ ["d"%char]) (payload ++ b)
          | None => Err ErrInvalidType
          end
      | ATimetag t =>
          MarshalBinary_loop rest (typetags ++ ["t"%char]) (payload ++ ToByteArray t)
      end
  end.

(** [msg.MarshalBinary()] *)
Definition MarshalBinary (msg : Message) : outcome bytes :=
  let data := fst (writePaddedString (Address msg) []) in
  match MarshalBinary_loop (Arguments msg) [","%char] [] with
  | Ok (typetags, payload) =>
      let data := fst (writePaddedString (string_of_list_ascii typetags) data) in
      Ok (data ++ payload)
  | Err e => Err e
  | Panic p => Panic p
  end.

(** ** Decoding (osc.go) *)

(** What the decoding functions mutate: the reader and the cursor [*start]. *)
Record Cursor : Type := mkCursor { reader : bufio.Reader; start : Z }.

Definition onReader {A : Type} (m : M bufio.Reader A) : M Cursor A := fun s =>
  let (o, r) := m (reader s) in (o, mkCursor r (start s)).

(** [*start += n] *)
Definition advance (n : Z) : M Cursor unit := fun s =>
  (Ok tt, mkCursor (reader s) (int_add (start s) n)).

(** How one round of a [for] loop ends: it falls through to the next round,
    or the function returns [nil] from inside the loop. *)
Inductive flow : Type :=
| Next (msg : Message)
| ReturnNil (msg : Message).

(** The body of the [for _, c := range typetags] loop of [readArguments]:
    the [switch c].  A byte outside ASCII begins a rune that no [case]
    matches: the loop stops there through [default], and [ErrTypeTag] then
    records the byte at which that rune begins. *)
Definition readArgument (c : byte) (msg : Message) : M Cursor flow :=
  if Ascii.eqb c "i" then                              (* int32 *)
    let* i := onReader (binary.Read binary.Int32) in
    let* _ := advance 4 in
    ret (Next (Append msg [AInt32 i]))
  else if Ascii.eqb c "h" then                         (* int64 *)
    let* i := onReader (binary.Read binary.Int64) in
    let* _ := advance 8 in
    ret (Next (Append msg [AInt64 i]))
  else if Ascii.eqb c "f" then                         (* float32 *)
    let* f := onReader (binary.Read binary.Float32) in
    let* _ := advance 4 in
    ret (Next (Append msg [AFloat32 f]))
  else if Ascii.eqb c "d" then                         (* float64/double *)
    let* d := onReader (binary.Read binary.Float64) in
    let* _ := advance 8 in
    ret (Next (Append msg [AFloat64 d]))
  else if Ascii.eqb c "s" then                         (* string *)
    let* '(s, _) := onReader readPaddedString in
    let* _ := advance (int_add (len s) (padBytesNeeded (len s))) in
    ret (Next (Append msg [AString s]))
  else if Ascii.eqb c "b" then                         (* blob *)
    let* '(buf, n) := onReader readBlob in
    let* _ := advance n in
    ret (Next (Append msg [ABlob buf]))
  else if Ascii.eqb c "t" then                         (* OSC time tag *)
    fun st =>
      match onReader (binary.Read binary.Uint64) st with
      | (Ok tt_, st') =>
          (let* _ := advance 8 in
           ret (Next (Append msg [ATimetag (NewTimetagFromTimetag tt_)]))) st'
      | (Err _, st') => (Ok (ReturnNil msg), st')      (* return nil *)
      | (Panic p, st') => (Panic p, st')
      end
  else if Ascii.eqb c "T" then                         (* true *)
    ret (Next (Append msg [ABool true]))
  else if Ascii.eqb c "F" then                         (* false *)
    ret (Next (Append msg [ABool false]))
  else fail (ErrTypeTag c).

Fixpoint readArguments_loop (typetags : bytes) (msg : Message) : M Cursor Message :=
  match typetags with
  | [] => ret msg
  | c :: rest =>
      let* f := readArgument c msg in
      match f with
      | Next msg => readArguments_loop rest msg
      | ReturnNil msg => ret msg
      end
  end.

(** [readArguments(msg, reader, start)]; the message it returns is [msg]
    after the appends. *)
Definition readArguments (msg : Message) : M Cursor Message :=
  let* '(typetags, n) := onReader readPaddedString in
  let* _ := advance n in
  match typetags with
  | EmptyString => throw IndexOutOfRange                  (* typetags[0] *)
  | String c0 typetags =>
      if negb (Ascii.eqb c0 ",") then fail ErrTypeTagString
      else readArguments_loop (list_ascii_of_string typetags) msg
  end.

(** [readMessage(reader, start)] *)
Definition readMessage : M Cursor Message :=
  let* '(a, n) := onReader readPaddedString in
  let* _ := advance n in
  let msg := NewMessage a [] in
  readArguments msg.

(** ** Bundles and packets (osc.go / packet.go, bundle file) *)

Definition bundleTag : string := "#bundle".

#[local] Unset Elimination Schemes.
Inductive Bundle : Type :=
  mkBundle (bTimetag : Timetag) (bMessages : list Message)
           (bBundles : list Bundle) (bAddr : option NetAddr).
#[local] Set Elimination Schemes.

Definition Messages (b : Bundle) : list Message :=
  match b with mkBundle _ ms _ _ => ms end.
Definition Bundles (b : Bundle) : list Bundle :=
  match b with mkBundle _ _ bs _ => bs end.

(** The [Packet] interface: a [*Message] or a [*Bundle]; the nil interface
    value is [None] of [option Packet]. *)
Inductive Packet : Type :=
| PMessage (m : Message)
| PBundle (b : Bundle).

(** Modelled from the spec: [NewBundle(timetagToTime(v))] for a raw wire
    value [v] (the Timetag source is not at hand, see [Timetag]). *)
Definition NewBundle (v : Z) : Bundle := mkBundle (mkTimetag v) [] [] None.

(** [b.Append(pck)] *)
Definition BundleAppend (b : Bundle) (pck : option Packet) : outcome Bundle :=
  match b, pck with
  | mkBundle t ms bs a, Some (PBundle t') => Ok (mkBundle t ms (bs ++ [t']) a)
  | mkBundle t ms bs a, Some (PMessage t') => Ok (mkBundle t (ms ++ [t']) bs a)
  | _, None => Err ErrPacketType
  end.

(** [pkt.SetAddr(addr)] on a non-nil packet. *)
Definition PacketSetAddr (pkt : Packet) (a : NetAddr) : Packet :=
  match pkt with
  | PMessage m => PMessage (SetAddr m a)
  | PBundle (mkBundle t ms bs _) => PBundle (mkBundle t ms bs (Some a))
  end.

Definition pure {S A : Type} (o : outcome A) : M S A := fun s => (o, s).

(** [readPacket], [readBundle] and the [for *start < end] loop of
    [readBundle] call one another; [fuel] bounds the depth of these calls.
    Every call consumes input before it recurses, so the bound is never met
    when [fuel] exceeds the number of unread bytes ([StackExhausted] marks
    the bound; see [readPacket_fuel]). *)
Fixpoint readPacket (fuel : nat) (end_ : Z) {struct fuel} : M Cursor (option Packet) :=
  match fuel with
  | O => throw StackExhausted
  | S fuel' =>
      let* buf0 := onReader bufio.Peek1 in
      if Ascii.eqb buf0 "/" then
        let* pkt := readMessage in
        ret (Some (PMessage pkt))
      else if Ascii.eqb buf0 "#" then
        let* pkt := readBundle fuel' end_ in
        ret (Some (PBundle pkt))
      else ret None
  end

with readBundle (fuel : nat) (end_ : Z) {struct fuel} : M Cursor Bundle :=
  match fuel with
  | O => throw StackExhausted
  | S fuel' =>
      let* '(startTag, n) := onReader readPaddedString in
      let* _ := advance n in
      if negb (String.eqb startTag bundleTag) then fail (ErrBundleTag startTag)
      else
        let* timeTag := onReader (binary.Read binary.Uint64) in
        let* _ := advance 8 in
        let bundle := NewBundle timeTag in
        readBundle_loop fuel' end_ bundle
  end

with readBundle_loop (fuel : nat) (end_ : Z) (bundle : Bundle) {struct fuel}
    : M Cursor Bundle :=
  match fuel with
  | O => throw StackExhausted
  | S fuel' => fun st =>
      if start st <? end_ then
        (let* length := onReader (binary.Read binary.Int32) in
         let* _ := advance 4 in
         let* pkt := readPacket fuel' end_ in
         let* bundle := pure (BundleAppend bundle pkt) in
         readBundle_loop fuel' end_ bundle) st
      else (Ok bundle, st)
  end.

(** Enough fuel for a reader holding [data]. *)
Definition fuel_for (data : bytes) : nat := S (List.length data).

(** [ParsePacket(msg)] *)
Definition ParsePacket (msg : string) : outcome (option Packet) :=
  let data := list_ascii_of_string msg in
  fst (readPacket (fuel_for data) (len msg) (mkCursor (bufio.NewReader data) 0)).

(** ** [strings] and [regexp] *)

(** [strings.Contains(s, substr)] *)
Fixpoint strings_Contains (s substr : string) : bool :=
  if String.prefix substr s then true
  else match s with
       | EmptyString => false
       | String _ s' => strings_Contains s' substr
       end.

(** [strings.Replace(s, old, new, -1)] for a one-byte [old] (the only use
    the package makes of it). *)
Fixpoint strings_Replace (s : string) (old : byte) (new : string) : string :=
  match s with
  | EmptyString => EmptyString
  | String c s' =>
      if Ascii.eqb c old then (new ++ strings_Replace s' old new)%string
      else String c (strings_Replace s' old new)
  end.

(** The part of Go's [regexp] (RE2 syntax, Perl flags) that the expressions
    built by [getRegEx] from plain ASCII addresses fall into: literals,
    escaped punctuation, [.], [*], groups, alternation and character classes
    of letters, digits and ranges of them.  Anything else
    (other character classes, [+ ? ^ $], escapes of letters or digits, bytes
    outside ASCII, expressions longer than [maxModelled]) is reported as
    [Unmodelled] rather than guessed. *)
Module regexp.

Inductive Regexp : Type :=
| NoMatch                           (* matches nothing *)
| EmptyMatch                        (* matches the empty string *)
| Literal (c : byte)
| AnyCharNotNL                      (* [.] without the [s] flag *)
| AnyChar
| CharClass (negated : bool) (ranges : list (byte * byte))
| Concat (r1 r2 : Regexp)
| Alternate (r1 r2 : Regexp)
| Star (r : Regexp).

Inductive compiled : Type :=
| Compiled (re : Regexp)
| SyntaxError                       (* [Compile] returns an error *)
| Unmodelled.

Definition maxModelled : nat := 512.

Definition isASCII (s : bytes) : bool :=
  forallb (fun c => (N_of_ascii c <? 128)%N) s.

Definition isalnum (c : byte) : bool :=
  let n := N_of_ascii c in
  ((48 <=? n) && (n <=? 57) || (65 <=? n) && (n <=? 90) || (97 <=? n) && (n <=? 122))%N.

(** Operators the model does not cover. *)
Definition unmodelled_op (c : byte) : bool :=
  existsb (Ascii.eqb c) (list_ascii_of_string "]+?^${}").

(** Parser state: one frame per open group.  [alts] are the finished
    alternatives of the group, [seq] the items of the alternative being
    read (last item first), [lst] tells whether a repetition operator may
    follow. *)
Inductive last : Type := NoOperand | Operand | Repeated.
Record frame : Type := mkFrame { alts : list Regexp; seq : list Regexp; lst : last }.

Definition emptyFrame : frame := mkFrame [] [] NoOperand.
Definition concat_of (items : list Regexp) : Regexp :=
  fold_left (fun acc r => Concat r acc) items EmptyMatch.
Definition close (f : frame) : Regexp :=
  fold_right Alternate (concat_of (seq f)) (alts f).
Definition push (f : frame) (r : Regexp) : frame :=
  mkFrame (alts f) (r :: seq f) Operand.
Definition bar (f : frame) : frame :=
  mkFrame (alts f ++ [concat_of (seq f)]) [] NoOperand.
Definition star (f : frame) : option frame :=
  match lst f, seq f with
  | Operand, r :: items => Some (mkFrame (alts f) (Star r :: items) Repeated)
  | _, _ => None      (* missing argument, or nested repetition *)
  end.

(** A character class being read: whether it began with [^], the ranges
    read so far, and where the reading stands.  Only classes made of letters
    and digits and of ranges between them are modelled. *)
Inductive class_mode : Type :=
| Init                     (* nothing read yet *)
| Ready                    (* a range was just completed *)
| Have (c : byte)          (* [c] was read and may begin a range *)
| Dash (c : byte).         (* [c-] was read *)
Record class : Type := mkClass { neg : bool; rngs : list (byte * byte); mode : class_mode }.

(** One more byte of a class: the class goes on ([inl]) or is complete
    ([inr]); [None] is outside the model. *)
Definition class_step (k : class) (x : byte) : option (class + Regexp) :=
  if Ascii.eqb x "]" then
    match mode k with
    | Ready => Some (inr (CharClass (neg k) (rngs k)))
    | Have c => Some (inr (CharClass (neg k) (rngs k ++ [(c, c)])))
    | Init | Dash _ => None
    end
  else if Ascii.eqb x "^" then
    match mode k, neg k with
    | Init, false => Some (inl (mkClass true [] Init))
    | _, _ => None
    end
  else if Ascii.eqb x "-" then
    match mode k with
    | Have c => Some (inl (mkClass (neg k) (rngs k) (Dash c)))
    | _ => None
    end
  else if isalnum x then
    match mode k with
    | Init | Ready => Some (inl (mkClass (neg k) (rngs k) (Have x)))
    | Have c => Some (inl (mkClass (neg k) (rngs k ++ [(c, c)]) (Have x)))
    | Dash c =>
        if (N_of_ascii c <=? N_of_ascii x)%N
        then Some (inl (mkClass (neg k) (rngs k ++ [(c, x)]) Ready))
        else None
    end
  else None.

Fixpoint parse (expr : bytes) (top : frame) (open : list frame) (cls : option class)
    : compiled :=
  match expr with
  | [] =>
      match cls, open with
      | Some _, _ => Unmodelled
      | None, [] => Compiled (close top)
      | None, _ :: _ => SyntaxError                 (* missing closing ) *)
      end
  | c :: rest =>
      match cls with
      | Some k =>
          match class_step k c with
          | Some (inl k') => parse rest top open (Some k')
          | Some (inr r) => parse rest (push top r) open None
          | None => Unmodelled
          end
      | None =>
          if Ascii.eqb c "\" then
            match rest with
            | [] => SyntaxError                     (* trailing backslash *)
            | c' :: rest' =>
                if isalnum c' || Ascii.eqb c' "_" then Unmodelled
                else parse rest' (push top (Literal c')) open None
            end
          else if Ascii.eqb c "." then parse rest (push top AnyCharNotNL) open None
          else if Ascii.eqb c "*" then
            match star top with
            | Some top' => parse rest top' open None
            | None => SyntaxError
            end
          else if Ascii.eqb c "(" then parse rest emptyFrame (top :: open) None
          else if Ascii.eqb c ")" then
            match open with
            | [] => SyntaxError                     (* unexpected ) *)
            | outer :: open' => parse rest (push outer (close top)) open' None
            end
          else if Ascii.eqb c "|" then parse rest (bar top) open None
          else if Ascii.eqb c "[" then parse rest top open (Some (mkClass false [] Init))
          else if unmodelled_op c then Unmodelled
          else parse rest (push top (Literal c)) open None
      end
  end.

(** [regexp.Compile(expr)] *)
Definition Compile (expr : string) : compiled :=
  let e := list_ascii_of_string expr in
  if negb (isASCII e) then Unmodelled
  else if (maxModelled <? List.length e)%nat then Unmodelled
  else parse e emptyFrame [] None.

(** Matching by derivatives. *)
Fixpoint nullable (r : Regexp) : bool :=
  match r with
  | NoMatch | Literal _ | AnyCharNotNL | AnyChar | CharClass _ _ => false
  | EmptyMatch | Star _ => true
  | Concat r1 r2 => nullable r1 && nullable r2
  | Alternate r1 r2 => nullable r1 || nullable r2
  end.

Definition mkConcat (r1 r2 : Regexp) : Regexp :=
  match r1 with
  | NoMatch => NoMatch
  | EmptyMatch => r2
  | _ => Concat r1 r2
  end.

Definition mkAlternate (r1 r2 : Regexp) : Regexp :=
  match r1, r2 with
  | NoMatch, _ => r2
  | _, NoMatch => r1
  | _, _ => Alternate r1 r2
  end.

Fixpoint deriv (c : byte) (r : Regexp) : Regexp :=
  match r with
  | NoMatch | EmptyMatch => NoMatch
  | Literal a => if Ascii.eqb a c then EmptyMatch else NoMatch
  | AnyCharNotNL => if Ascii.eqb c "010" then NoMatch else EmptyMatch
  | AnyChar => EmptyMatch
  | CharClass negated ranges =>
      if xorb negated
              (existsb (fun r => (N_of_ascii (fst r) <=? N_of_ascii c)%N
                                 && (N_of_ascii c <=? N_of_ascii (snd r))%N) ranges)
      then EmptyMatch else NoMatch
  | Concat r1 r2 =>
      mkAlternate (mkConcat (deriv c r1) r2)
                  (if nullable r1 then deriv c r2 else NoMatch)
  | Alternate r1 r2 => mkAlternate (deriv c r1) (deriv c r2)
  | Star r1 => mkConcat (deriv c r1) (Star r1)
  end.

(** The whole of [s] is in the language of [r]. *)
Fixpoint matches (r : Regexp) (s : bytes) : bool :=
  match s with
  | [] => nullable r
  | c :: s' => matches (deriv c r) s'
  end.

(** [re.MatchString(s)]: some substring of [s] matches.  [None] when [s]
    is not plain ASCII. *)
Definition MatchString (re : Regexp) (s : string) : option bool :=
  let b := list_ascii_of_string s in
  if isASCII b
  then Some (matches (Concat (Star AnyChar) (Concat re (Star AnyChar))) b)
  else None.

End regexp.

(** The replacements of [getRegEx], in order. *)
Definition getRegEx_table : list (byte * string) :=
  [ ("."%char, "\.");    (* Escape all '.' in the pattern *)
    ("("%char, "\(");    (* Escape all '(' in the pattern *)
    (")"%char, "\)");    (* Escape all ')' in the pattern *)
    ("*"%char, ".*");    (* Replace a '*' with '.*' that matches zero or more chars *)
    ("{"%char, "(");     (* Change a '{' to '(' *)
    (","%char, "|");     (* Change a ',' to '|' *)
    ("}"%char, ")");     (* Change a '}' to ')' *)
    ("?"%char, ".") ]%string.   (* Change a '?' to '.' *)

(** The expression [getRegEx] hands to [regexp.MustCompile]. *)
Definition getRegEx_expr (pattern : string) : string :=
  fold_left (fun pattern trs => strings_Replace pattern (fst trs) (snd trs))
            getRegEx_table pattern.

(** [getRegEx(pattern)]: [MustCompile] panics on a syntax error.  [None]:
    the expression is outside the modelled part of [regexp]. *)
Definition getRegEx (pattern : string) : option (outcome regexp.Regexp) :=
  match regexp.Compile (getRegEx_expr pattern) with
  | regexp.Compiled re => Some (Ok re)
  | regexp.SyntaxError => Some (Panic RegexpSyntax)
  | regexp.Unmodelled => None
  end.

(** [msg.Match(addr)] *)
Definition Match (msg : Message) (a : string) : option (outcome bool) :=
  match getRegEx (Address msg) with
  | Some (Ok exp) =>
      match regexp.MatchString exp a with
      | Some true => Some (Ok true)
      | Some false => Some (Ok false)
      | None => None
      end
  | Some (Err e) => Some (Err e)
  | Some (Panic p) => Some (Panic p)
  | None => None
  end.

(** ** The dispatcher (server file) *)

(** Handlers are values of an arbitrary type [H]; calling
    [handler.HandleMessage(msg)] is recorded as the pair [(handler, msg)]. *)
Record OSCDispatcher (H : Type) : Type := mkDispatcher { handlers : gmap string H }.
Arguments mkDispatcher {H} handlers.
Arguments handlers {H} _.

Definition NewOSCDispatcher {H : Type} : OSCDispatcher H := mkDispatcher ∅.

(** [addressExists(addr, handlers)] *)
Definition addressExists {H : Type} (a : string) (hs : gmap string H) : bool :=
  existsb (fun h => String.eqb (fst h) a) (map_to_list hs).

(** The [for _, chr := range "*?,[]{}# "] loop of [AddMsgHandler]. *)
Fixpoint AddMsgHandler_chars (chars : bytes) (a : string) : option error :=
  match chars with
  | [] => None
  | chr :: chars' =>
      if strings_Contains a (String chr EmptyString) then Some (ErrAddressChar chr)
      else AddMsgHandler_chars chars' a
  end.

Definition reservedChars : string := "*?,[]{}# ".

(** [d.AddMsgHandler(addr, handler)]: the returned error ([None] is [nil])
    and the dispatcher afterwards. *)
Definition AddMsgHandler {H : Type} (d : OSCDispatcher H) (a : string) (handler : H)
    : option error * OSCDispatcher H :=
  match AddMsgHandler_chars (list_ascii_of_string reservedChars) a with
  | Some err => (Some err, d)
  | None =>
      if addressExists a (handlers d) then (Some (ErrAddressExists a), d)
      else (None, mkDispatcher (<[a := handler]> (handlers d)))
  end.

(** The loop [for addr, handler := range d.handlers] of [Dispatch], over the
    entries in the order the iteration visits them: the calls made.  [None]:
    a match fell outside the modelled part of [regexp]. *)
Fixpoint dispatchTo {H : Type} (msg : Message) (entries : list (string * H))
    : option (outcome (list (H * Message))) :=
  match entries with
  | [] => Some (Ok [])
  | (a, handler) :: entries' =>
      match Match msg a with
      | Some (Ok true) =>
          match dispatchTo msg entries' with
          | Some (Ok calls) => Some (Ok ((handler, msg) :: calls))
          | other => other
          end
      | Some (Ok false) => dispatchTo msg entries'
      | Some (Err e) => Some (Err e)
      | Some (Panic p) => Some (Panic p)
      | None => None
      end
  end.

Definition then_calls {H : Type} (o1 o2 : option (outcome (list (H * Message))))
    : option (outcome (list (H * Message))) :=
  match o1, o2 with
  | Some (Ok c1), Some (Ok c2) => Some (Ok (c1 ++ c2))
  | Some (Ok _), other => other
  | other, _ => other
  end.

(** The goroutine [Dispatch] starts for a [*Bundle], once its timer has
    fired: the calls for the bundle's messages, then [d.Dispatch(b)] for
    every nested bundle.  Timers and the interleaving of the goroutines of
    nested bundles are outside the model: the calls are listed in program
    order. *)
Fixpoint dispatchBundle {H : Type} (entries : list (string * H)) (bundle : Bundle)
    : option (outcome (list (H * Message))) :=
  match bundle with
  | mkBundle _ messages bundles _ =>
      then_calls
        (fold_right (fun message acc => then_calls (dispatchTo message entries) acc)
                    (Some (Ok [])) messages)
        ((fix nested (bs : list Bundle) :=
            match bs with
            | [] => Some (Ok [])
            | b :: bs' => then_calls (dispatchBundle entries b) (nested bs')
            end) bundles)
  end.

(** [d.Dispatch(pkt)]: the calls of handlers it causes.  Go leaves the
    iteration order of a map unspecified; [map_to_list] fixes one. *)
Definition Dispatch {H : Type} (d : OSCDispatcher H) (pkt : option Packet)
    : option (outcome (list (H * Message))) :=
  match pkt with
  | None => Some (Ok [])                                   (* default: return *)
  | Some (PMessage msg) => dispatchTo msg (map_to_list (handlers d))
  | Some (PBundle bundle) => dispatchBundle (map_to_list (handlers d)) bundle
  end.

(** ** The server (server file) *)

(** What the connection does in one call of [ReceivePacket]: the context has
    a deadline and [c.SetReadDeadline] fails, or [c.ReadFrom(data)] fails,
    or it delivers a datagram. *)
Inductive conn_step : Type :=
| SetReadDeadlineFails (e : error)
| ReadFromFails (e : error)
| ReadFromOk (payload : bytes) (from : NetAddr).

Definition datagramBuffer : nat := Z.to_nat 65535.

(** [s.ReceivePacket(ctx, c)].  The reader is built over the whole 65535-byte
    buffer [data], of which the first [n] bytes are the datagram. *)
Definition ReceivePacket (step : conn_step) : outcome Packet :=
  match step with
  | SetReadDeadlineFails err => Err err
  | ReadFromFails err => Err err
  | ReadFromOk payload from =>
      let got := firstn datagramBuffer payload in
      let n := blen got in
      let data := got ++ repeat NUL (datagramBuffer - List.length got) in
      match fst (readPacket (fuel_for data) n (mkCursor (bufio.NewReader data) 0)) with
      | Err err => Err err
      | Panic p => Panic p
      | Ok None => Panic NilDereference              (* pkt.SetAddr(addr) *)
      | Ok (Some pkt) => Ok (PacketSetAddr pkt from)
      end
  end.

(** [err.(net.Error)] succeeds and [ne.Temporary()] holds. *)
Definition isTemporary (err : error) : bool :=
  match err with
  | ErrNet temporary => temporary
  | _ => false
  end.

Definition Millisecond : Z := 1000000.
Definition Second : Z := 1000000000.

(** What [Serve] does that can be observed. *)
Inductive event : Type :=
| Sleep (d : Z)                   (* time.Sleep(d) *)
| GoDispatch (pkt : Packet).      (* go s.dispatcher.Dispatch(pkt) *)

(** How a run of [Serve] over a finite script of connection steps ends: it
    returned an error, the process panicked, or the script is used up and
    [Serve] is waiting in [ReadFrom]. *)
Inductive ending : Type :=
| Returned (err : error)
| Crashed (p : panic)
| Receiving.

(** The delay [Serve] sleeps after a temporary error, given the previous
    one ([time.Duration] is a 64-bit integer). *)
Definition backoff (tempDelay : Z) : Z :=
  let tempDelay := if tempDelay =? 0 then int_mul 5 Millisecond
                   else int_mul tempDelay 2 in
  let max := int_mul 1 Second in
  if max <? tempDelay then max else tempDelay.

(** The [for] loop of [s.Serve(ctx, c)]. *)
Fixpoint Serve_loop (tempDelay : Z) (conn : list conn_step) : list event * ending :=
  match conn with
  | [] => ([], Receiving)
  | step :: conn' =>
      match ReceivePacket step with
      | Err err =>
          if isTemporary err then
            let tempDelay := backoff tempDelay in
            let (evs, fin) := Serve_loop tempDelay conn' in
            (Sleep tempDelay :: evs, fin)
          else ([], Returned err)
      | Panic p => ([], Crashed p)
      | Ok msg =>
          let tempDelay := 0 in
          let (evs, fin) := Serve_loop tempDelay conn' in
          (GoDispatch msg :: evs, fin)
      end
  end.

Definition Serve (conn : list conn_step) : list event * ending := Serve_loop 0 conn.

(** [nulls(i)] of the package's tests: a string of [i] NUL bytes. *)
Definition nulls (i : nat) : string := string_of_list_ascii (repeat NUL i).

(** A reader and cursor over the bytes of [s], as [ParsePacket] builds it. *)
Definition cursorOver (s : string) : Cursor :=
  mkCursor (bufio.NewReader (list_ascii_of_string s)) 0.

(** ** Notions used to state the properties *)

(** The state in which the loop of [readArguments] reaches the tag that
    follows [pre]: every tag of [pre] was decoded and its argument
    appended. *)
Fixpoint decoded (pre : bytes) (msg : Message) (st : Cursor) : option (Message * Cursor) :=
  match pre with
  | [] => Some (msg, st)
  | c :: pre' =>
      match readArgument c msg st with
      | (Ok (Next msg'), st') => decoded pre' msg' st'
      | _ => None
      end
  end.

(** The error, if any, of the payload read that the tag [c] asks for in
    state [st]. *)
Definition payloadError (c : byte) (st : Cursor) : option error :=
  let failure {A : Type} (m : M bufio.Reader A) : option error :=
    match fst (m (reader st)) with
    | Err e => Some e
    | _ => None
    end in
  if Ascii.eqb c "i" then failure (binary.Read binary.Int32)
  else if Ascii.eqb c "h" then failure (binary.Read binary.Int64)
  else if Ascii.eqb c "f" then failure (binary.Read binary.Float32)
  else if Ascii.eqb c "d" then failure (binary.Read binary.Float64)
  else if Ascii.eqb c "s" then failure readPaddedString
  else if Ascii.eqb c "b" then failure readBlob
  else if Ascii.eqb c "t" then failure (binary.Read binary.Uint64)
  else None.

(** The length a blob declares: the first four unread bytes, big endian;
    and the number of unread bytes that follow them. *)
Definition declaredLength (r : bufio.Reader) : Z :=
  binary.be_unsigned (firstn 4 (bufio.remaining r)).
Definition bytesAfterLength (r : bufio.Reader) : Z :=
  blen (skipn 4 (bufio.remaining r)).

(** An address contains one of the characters [* ? , [ ] { } #] or a space. *)
Definition hasReservedChar (a : string) : Prop :=
  exists c, In c (list_ascii_of_string reservedChars) /\ In c (list_ascii_of_string a).

(** The delay of the [i]-th temporary error of a run, counted from 0:
    5 ms doubled [i] times, capped at 1 s. *)
Definition nthDelay (i : nat) : Z := Z.min (5 * Millisecond * 2 ^ Z.of_nat i) Second.

(** [tempDelay] when the [i]-th temporary error of a run arrives. *)
Definition delayBefore (i : nat) : Z :=
  match i with
  | O => 0
  | S j => nthDelay j
  end.

(** [msg.Match(addr)] returned [true]. *)
Definition matched (msg : Message) (a : string) : bool :=
  match Match msg a with
  | Some (Ok true) => true
  | _ => false
  end.

(** *** Address patterns *)

(** The translation of an address pattern into a regular expression, one
    character at a time: ['.'], ['('] and [')'] are escaped, ['*'] becomes
    [".*"], ['?'] becomes ['.'], ['{'], [','] and ['}'] become ['('], ['|']
    and [')'], and every other character (those of a [[...]] class too) is
    kept. *)
Definition translateChar (c : byte) : string :=
  if Ascii.eqb c "." then "\."
  else if Ascii.eqb c "(" then "\("
  else if Ascii.eqb c ")" then "\)"
  else if Ascii.eqb c "*" then ".*"
  else if Ascii.eqb c "{" then "("
  else if Ascii.eqb c "," then "|"
  else if Ascii.eqb c "}" then ")"
  else if Ascii.eqb c "?" then "."
  else String c EmptyString.

Fixpoint translation (pattern : string) : string :=
  match pattern with
  | EmptyString => EmptyString
  | String c pattern' => (translateChar c ++ translation pattern')%string
  end.

(** ["\n"] *)
Definition newline : byte := "010"%char.

(** A character that stands for itself in an address pattern: after the
    translation of [getRegEx] it is a literal of the regular expression
    (['.'], ['('] and [')'] by their escapes). *)
Definition literalChar (c : byte) : bool :=
  (N_of_ascii c <? 128)%N
  && negb (existsb (Ascii.eqb c) (list_ascii_of_string "\|[]+?^${},*")).

(** A pattern of literal characters and the wildcards ['?'] and ['*']. *)
Definition flatChar (c : byte) : bool :=
  literalChar c || Ascii.eqb c "?" || Ascii.eqb c "*".
Definition flatPattern (pattern : string) : bool :=
  forallb flatChar (list_ascii_of_string pattern).

(** What such a pattern matches: a literal character itself, ['?'] any one
    character but a newline, ['*'] any run of characters without a
    newline. *)
Inductive oscMatch : bytes -> bytes -> Prop :=
| match_end : oscMatch [] []
| match_literal c p s :
    literalChar c = true -> oscMatch p s -> oscMatch (c :: p) (c :: s)
| match_one c p s :
    c <> newline -> oscMatch p s -> oscMatch ("?"%char :: p) (c :: s)
| match_many run p s :
    ~ In newline run -> oscMatch p s -> oscMatch ("*"%char :: p) (run ++ s).

(** Some substring of [a] matches the flat pattern [pattern]: the search of
    [MatchString] is not anchored. *)
Definition oscMatches (pattern a : string) : Prop :=
  exists pre mid post,
    list_ascii_of_string a = pre ++ mid ++ post /\
    oscMatch (list_ascii_of_string pattern) mid.

(** [a] is plain ASCII. *)
Definition asciiString (a : string) : Prop :=
  regexp.isASCII (list_ascii_of_string a) = true.

(** A run of [k] consecutive temporary errors. *)
Definition temporaryErrors (k : nat) : list conn_step :=
  repeat (ReadFromFails (ErrNet true)) k.

(** ** Notions used in the proofs *)

(** Which errors and panics a computation can end with. *)
Definition ends_with {A : Type} (PE : error -> Prop) (PP : panic -> Prop)
    (o : outcome A) : Prop :=
  match o with
  | Ok _ => True
  | Err e => PE e
  | Panic p => PP p
  end.

Definition ends {S A : Type} (PE : error -> Prop) (PP : panic -> Prop) (m : M S A) : Prop :=
  forall s, ends_with PE PP (fst (m s)).

(** The errors of a truncated input. *)
Definition truncation (e : error) : Prop := e = EOF \/ e = ErrUnexpectedEOF.
Definition never (p : panic) : Prop := False.

(** Errors that are not temporary network errors; panics. *)
Definition plain (e : error) : Prop := isTemporary e = false.
Definition any (p : panic) : Prop := True.
Definition indexOnly (p : panic) : Prop := p = IndexOutOfRange.

(** The number of bytes a reader has not consumed yet. *)
Definition unread (r : bufio.Reader) : nat := List.length (bufio.remaining r).

Definition unreadAt (st : Cursor) : nat := unread (reader st).

(** Decoding only consumes. *)
Definition shrinks {A : Type} (m : M Cursor A) : Prop :=
  forall st, (unreadAt (snd (m st)) <= unreadAt st)%nat.

(** [c] is in the character class. *)
Definition inRanges (negated : bool) (ranges : list (byte * byte)) (c : byte) : bool :=
  xorb negated
       (existsb (fun r => (N_of_ascii (fst r) <=? N_of_ascii c)%N
                          && (N_of_ascii c <=? N_of_ascii (snd r))%N) ranges).

(** The strings a regular expression stands for. *)
Inductive lang : regexp.Regexp -> bytes -> Prop :=
| lang_empty : lang regexp.EmptyMatch []
| lang_literal c : lang (regexp.Literal c) [c]
| lang_notnl c : c <> newline -> lang regexp.AnyCharNotNL [c]
| lang_any c : lang regexp.AnyChar [c]
| lang_class negated ranges c :
    inRanges negated ranges c = true -> lang (regexp.CharClass negated ranges) [c]
| lang_concat r1 r2 s1 s2 :
    lang r1 s1 -> lang r2 s2 -> lang (regexp.Concat r1 r2) (s1 ++ s2)
| lang_left r1 r2 s : lang r1 s -> lang (regexp.Alternate r1 r2) s
| lang_right r1 r2 s : lang r2 s -> lang (regexp.Alternate r1 r2) s
| lang_star_nil r : lang (regexp.Star r) []
| lang_star_cons r c s1 s2 :
    lang r (c :: s1) -> lang (regexp.Star r) s2 -> lang (regexp.Star r) (c :: s1 ++ s2).

#[local] Hint Constructors lang : core.

(** The regular expression of a flat pattern, and the parser frame after
    one more item of it. *)
Definition itemRegexp (c : byte) : regexp.Regexp :=
  if Ascii.eqb c "?" then regexp.AnyCharNotNL
  else if Ascii.eqb c "*" then regexp.Star regexp.AnyCharNotNL
  else regexp.Literal c.

Definition flatRegexp (p : bytes) : regexp.Regexp :=
  fold_right regexp.Concat regexp.EmptyMatch (map itemRegexp p).

Definition pushItem (f : regexp.frame) (c : byte) : regexp.frame :=
  regexp.mkFrame (regexp.alts f) (itemRegexp c :: regexp.seq f)
                 (if Ascii.eqb c "*" then regexp.Repeated else regexp.Operand).

(** ** Theorems *)

Lemma wrap_int_small z : MinInt <= z <= MaxInt -> wrap_int z = z.
Proof.
  unfold wrap_int, MinInt, MaxInt. intros H.
  rewrite Z.mod_small; lia.
Qed.

Lemma length_list_ascii_of_string (s : string) :
  List.length (list_ascii_of_string s) = String.length s.
Proof. induction s as [|c s IH]; simpl; [reflexivity | now rewrite IH]. Qed.

Lemma blen_list_ascii_of_string (s : string) : blen (list_ascii_of_string s) = len s.
Proof. unfold blen, len. now rewrite length_list_ascii_of_string. Qed.

Lemma len_nonneg (s : string) : 0 <= len s.
Proof. unfold len. lia. Qed.

(** [padBytesNeeded] without wrap-around, on lengths that leave room for
    the padding. *)
Lemma padBytesNeeded_spec (n : Z) :
  0 <= n <= MaxInt - 4 ->
  padBytesNeeded n = 4 * (n / 4 + 1) - n /\ padBytesNeeded n = 4 - n mod 4.
Proof.
  intros Hn. unfold MaxInt in Hn.
  assert (Hq : Z.quot n 4 = n / 4) by (apply Z.quot_div_nonneg; lia).
  pose proof (Z.div_mod n 4 ltac:(lia)) as Hdm.
  pose proof (Z.mod_pos_bound n 4 ltac:(lia)) as Hm.
  unfold padBytesNeeded, int_sub, int_mul, int_add, int_div.
  rewrite Hq.
  rewrite (wrap_int_small (n / 4)) by (unfold MinInt, MaxInt; lia).
  rewrite (wrap_int_small (n / 4 + 1)) by (unfold MinInt, MaxInt; lia).
  rewrite (wrap_int_small (4 * (n / 4 + 1))) by (unfold MinInt, MaxInt; lia).
  rewrite wrap_int_small by (unfold MinInt, MaxInt; lia).
  split; lia.
Qed.

Lemma padBytesNeeded_range (n : Z) :
  0 <= n <= MaxInt - 4 -> 1 <= padBytesNeeded n <= 4.
Proof.
  intros Hn. destruct (padBytesNeeded_spec n Hn) as [_ ->].
  pose proof (Z.mod_pos_bound n 4 ltac:(lia)). lia.
Qed.

(** C8. For every string [s] (of a length an [int] can hold together with
    its padding), [writePaddedString] appends [s] followed by exactly
    [padBytesNeeded(len(s)) = 4*(len(s)/4 + 1) - len(s)] zero bytes; that
    count lies between 1 and 4, so a terminating NUL is always written; the
    number of bytes written, which is also the count returned, is a multiple
    of 4 and at least [len(s) + 1]. *)
Theorem writePaddedString_padding (s : string) (buf : bytes) :
  len s <= MaxInt - 4 ->
  let pad := padBytesNeeded (len s) in
  pad = 4 * (len s / 4 + 1) - len s /\
  1 <= pad <= 4 /\
  fst (writePaddedString s buf)
    = buf ++ list_ascii_of_string s ++ repeat NUL (Z.to_nat pad) /\
  snd (writePaddedString s buf) = len s + pad /\
  blen (fst (writePaddedString s buf)) = blen buf + (len s + pad) /\
  (len s + pad) mod 4 = 0 /\
  len s + 1 <= len s + pad.
Proof.
  intros Hlen pad.
  pose proof (len_nonneg s) as H0.
  destruct (padBytesNeeded_spec (len s) (conj H0 Hlen)) as [Hformula Hmod].
  pose proof (padBytesNeeded_range (len s) (conj H0 Hlen)) as Hrange.
  fold pad in Hformula, Hmod, Hrange.
  assert (Hw : writePaddedString s buf
               = (buf ++ list_ascii_of_string s ++ repeat NUL (Z.to_nat pad), len s + pad)).
  { unfold writePaddedString. fold pad.
    destruct (Z.ltb_spec 0 pad) as [_|Hbad]; [|lia].
    unfold make, blen. rewrite repeat_length, Z2Nat.id by lia.
    unfold int_add. rewrite wrap_int_small by (unfold MinInt, MaxInt in *; lia).
    now rewrite <- app_assoc. }
  rewrite Hw. cbn [fst snd].
  repeat split; try lia.
  - unfold blen. rewrite !length_app, repeat_length, length_list_ascii_of_string.
    unfold len. lia.
  - rewrite Hmod.
    pose proof (Z.div_mod (len s) 4 ltac:(lia)) as Hdm.
    replace (len s + (4 - len s mod 4)) with ((len s / 4 + 1) * 4) by lia.
    apply Z.mod_mul. lia.
Qed.

Lemma writePaddedString_padding_witness :
  let s := "/a/b/c"%string in
  fst (writePaddedString s []) = list_ascii_of_string s ++ [NUL; NUL] /\
  snd (writePaddedString s []) = 8.
Proof.
  assert (Hlen : len "/a/b/c" <= MaxInt - 4) by (vm_compute; discriminate).
  destruct (writePaddedString_padding "/a/b/c" [] Hlen) as (_ & _ & Hbytes & Hcount & _).
  split; [exact Hbytes | exact Hcount].
Defined.

(** *** Blobs *)

Lemma readBlob_unfold (r : bufio.Reader) : readBlob r = (Err ErrInvalidType, r).
Proof. reflexivity. Qed.

(** C2 at its failing input. A blob that declares 100 bytes with none
    following: [binary.Read] rejects the [int] variable [blobLen] before it
    reads a byte, so the declared length is never decoded nor compared with
    what remains, and [readBlob] returns the decoder's type error, leaving
    the input where it was.  It is the error a well-formed blob gets as
    well (one byte ['x'] and its three padding bytes), and the one
    [ParsePacket] returns for a message with the oversized blob. *)
Theorem readBlob_oversized_invalid_type :
  let oversized := bufio.NewReader ["000"; "000"; "000"; "100"]%char in
  let wellformed :=
    bufio.NewReader ["000"; "000"; "000"; "001"; "x"; "000"; "000"; "000"]%char in
  (bytesAfterLength oversized < declaredLength oversized /\
   readBlob oversized = (Err ErrInvalidType, oversized)) /\
  (declaredLength wellformed <= bytesAfterLength wellformed /\
   readBlob wellformed = (Err ErrInvalidType, wellformed)) /\
  ParsePacket ("/a" ++ nulls 2 ++ ",b" ++ nulls 2 ++ nulls 3 ++ "d") = Err ErrInvalidType.
Proof.
  intros oversized wellformed.
  split; [split; [vm_compute; reflexivity | reflexivity]|].
  split; [split; [vm_compute; discriminate | reflexivity]|].
  vm_compute. reflexivity.
Qed.

(** *** Evaluations at concrete packets *)

(** C5 at its failing input. The address ["/a"] followed by an empty
    type-tag string (four NUL bytes): [typetags[0]] is evaluated on the
    empty string and the decoder panics instead of returning an error. *)
Theorem readArguments_empty_typetags_panics :
  fst (onReader readPaddedString (cursorOver (nulls 4))) = Ok (EmptyString, 4) /\
  fst (readArguments (NewMessage "/a" []) (cursorOver (nulls 4)))
    = Panic IndexOutOfRange /\
  ParsePacket ("/a" ++ nulls 2 ++ nulls 4) = Panic IndexOutOfRange.
Proof. split; [|split]; vm_compute; reflexivity. Qed.

(** C1 at its failing input. [MarshalBinary] encodes a nil argument with the
    tag ['N'], for which [readArguments] has no case: the encoding of the
    message does not decode. *)
Theorem roundtrip_nil_argument_fails :
  MarshalBinary (NewMessage "/a" [ANil])
    = Ok (list_ascii_of_string ("/a" ++ nulls 2 ++ ",N" ++ nulls 2)) /\
  ParsePacket ("/a" ++ nulls 2 ++ ",N" ++ nulls 2) = Err (ErrTypeTag "N"%char).
Proof. split; vm_compute; reflexivity. Qed.

(** The same for a blob argument: the encoding of a one-byte blob does not
    decode either. *)
Lemma roundtrip_blob_argument_fails :
  exists data,
    MarshalBinary (NewMessage "/a" [ABlob ["x"%char]]) = Ok data /\
    ParsePacket (string_of_list_ascii data) = Err ErrInvalidType.
Proof. eexists. split; [vm_compute; reflexivity | vm_compute; reflexivity]. Qed.

(** Arguments the decoder has a case for do come back. *)
Example roundtrip_int_string_bool :
  exists data,
    let m := NewMessage "/a/b" [AInt32 (-7); AString "hello"; ABool true;
                                AInt64 5; AFloat32 1065353216; ABool false] in
    MarshalBinary m = Ok data /\
    ParsePacket (string_of_list_ascii data) = Ok (Some (PMessage m)).
Proof. eexists. split; [vm_compute; reflexivity | vm_compute; reflexivity]. Qed.

(** *** Which errors and panics a computation can end with *)

Lemma ends_weaken {S A : Type} (PE PE' : error -> Prop) (PP PP' : panic -> Prop)
    (m : M S A) :
  (forall e, PE e -> PE' e) -> (forall p, PP p -> PP' p) ->
  ends PE PP m -> ends PE' PP' m.
Proof.
  intros HE HP Hm s. specialize (Hm s).
  destruct (fst (m s)); simpl in *; auto.
Qed.

Lemma ends_bind {S A B : Type} (PE : error -> Prop) (PP : panic -> Prop)
    (m : M S A) (k : A -> M S B) :
  ends PE PP m -> (forall a, ends PE PP (k a)) -> ends PE PP (bind m k).
Proof.
  intros Hm Hk s. unfold bind. specialize (Hm s).
  destruct (m s) as [[a|e|p] s']; simpl in *; auto. apply Hk.
Qed.

Lemma ends_ret {S A : Type} PE PP (a : A) : ends (S := S) PE PP (ret a).
Proof. intros s. exact I. Qed.

Lemma ends_advance PE PP n : ends PE PP (advance n).
Proof. intros s. exact I. Qed.

Lemma ends_onReader {A : Type} PE PP (m : M bufio.Reader A) :
  ends PE PP m -> ends PE PP (onReader m).
Proof.
  intros Hm s. unfold onReader. specialize (Hm (reader s)).
  destruct (m (reader s)) as [o r]. exact Hm.
Qed.

Lemma fst_onReader {A : Type} (m : M bufio.Reader A) (st : Cursor) :
  fst (onReader m st) = fst (m (reader st)).
Proof. unfold onReader. now destruct (m (reader st)). Qed.

Lemma bufio_Read_ends (n : nat) : ends (fun e => e = EOF) never (bufio.Read n).
Proof.
  intros r. unfold bufio.Read.
  destruct n; [exact I|].
  destruct (bufio.buffered r); [|exact I].
  destruct (bufio.source r); [reflexivity|].
  destruct (bufio.defaultBufSize <=? S n)%nat; exact I.
Qed.

Lemma ReadFull_loop_ends (fuel want : nat) (acc : bytes) :
  ends truncation never (io.ReadFull_loop fuel want acc).
Proof.
  revert want acc. induction fuel as [|fuel IH]; intros want acc r.
  - destruct want; exact I.
  - destruct want as [|want]; [exact I|].
    cbn [io.ReadFull_loop].
    pose proof (bufio_Read_ends (S want) r) as HR.
    destruct (bufio.Read (S want) r) as [[bs|e|p] r']; cbn [fst] in HR; simpl in HR.
    + apply IH.
    + subst e. destruct acc; simpl; [now left | now right].
    + destruct HR.
Qed.

Lemma binary_Read_ends (k : binary.kind) :
  ends (fun e => truncation e \/ e = ErrInvalidType) never (binary.Read k).
Proof.
  unfold binary.Read. destruct (binary.dataSize k) as [n|].
  - apply ends_bind; [|intros; apply ends_ret].
    eapply ends_weaken; [| |apply ReadFull_loop_ends]; auto.
  - intros r. now right.
Qed.

Lemma ReadString_loop_error (fuel : nat) (delim : byte) (acc : bytes) (r : bufio.Reader) :
  forall bs e r',
    bufio.ReadString_loop fuel delim acc r = ((bs, Some e), r') -> e = EOF.
Proof.
  revert acc r. induction fuel as [|fuel IH]; intros acc r bs e r';
    cbn [bufio.ReadString_loop];
    destruct (bufio.IndexByte (bufio.buffered r) delim); try discriminate.
  - destruct (bufio.source r); intros [= _ <- _]; reflexivity.
  - destruct (bufio.source r); [intros [= _ <- _]; reflexivity|].
    destruct (bufio.defaultBufSize <=? _)%nat; apply IH.
Qed.

Lemma readPaddedString_ends : ends (fun e => e = EOF) never readPaddedString.
Proof.
  intros r. unfold readPaddedString, bufio.ReadString.
  destruct (bufio.ReadString_loop _ NUL [] r) as [[str [e|]] r'] eqn:Hrs.
  - apply ReadString_loop_error in Hrs. exact Hrs.
  - destruct (0 <? _); [|exact I].
    pose proof (bufio_Read_ends
                  (Z.to_nat (int_sub (padBytesNeeded (blen (removelast str))) 1)) r') as HR.
    destruct (bufio.Read _ r') as [[bs|e|p] r'']; exact HR.
Qed.

Lemma readBlob_ends : ends (fun e => e = ErrInvalidType) never readBlob.
Proof. intros r. rewrite readBlob_unfold. reflexivity. Qed.

(** *** One round of the argument loop *)

Lemma binary_Read_no_panic (k : binary.kind) (r : bufio.Reader) (p : panic) :
  fst (binary.Read k r) <> Panic p.
Proof.
  intros H. pose proof (binary_Read_ends k r) as HE. rewrite H in HE. exact HE.
Qed.

Lemma readPaddedString_no_panic (r : bufio.Reader) (p : panic) :
  fst (readPaddedString r) <> Panic p.
Proof.
  intros H. pose proof (readPaddedString_ends r) as HE. rewrite H in HE. exact HE.
Qed.

(** A fixed-size payload: the round continues, or returns the read error. *)
Lemma fixed_round (k : binary.kind) (w : Z) (f : Z -> Argument) (msg : Message) (st : Cursor) :
  let round := bind (onReader (binary.Read k))
                 (fun i => bind (advance w) (fun _ => ret (Next (Append msg [f i])))) in
  (exists i st', round st = (Ok (Next (Append msg [f i])), st') /\
                 fst (binary.Read k (reader st)) = Ok i) \/
  (exists e, fst (round st) = Err e /\ fst (binary.Read k (reader st)) = Err e).
Proof.
  intros round. unfold round, bind, onReader, advance, ret.
  pose proof (binary_Read_no_panic k (reader st)) as Hnp.
  destruct (binary.Read k (reader st)) as [[i|e|p] r']; cbn [fst] in *.
  - left. eauto.
  - right. eauto.
  - now destruct (Hnp p).
Qed.

(** Every tag but ['t'] either continues with one more argument or ends the
    decoding with an error; no tag but ['t'] returns nil from the loop. *)
Lemma readArgument_flow (c : byte) (msg : Message) (st : Cursor) :
  c <> "t"%char ->
  (exists a st', readArgument c msg st = (Ok (Next (Append msg [a])), st')) \/
  (exists e, fst (readArgument c msg st) = Err e).
Proof.
  intros Hc. unfold readArgument.
  destruct (Ascii.eqb c "i").
  { destruct (fixed_round binary.Int32 4 AInt32 msg st) as [(i & st' & H & _)|(e & H & _)]; eauto. }
  destruct (Ascii.eqb c "h").
  { destruct (fixed_round binary.Int64 8 AInt64 msg st) as [(i & st' & H & _)|(e & H & _)]; eauto. }
  destruct (Ascii.eqb c "f").
  { destruct (fixed_round binary.Float32 4 AFloat32 msg st) as [(i & st' & H & _)|(e & H & _)]; eauto. }
  destruct (Ascii.eqb c "d").
  { destruct (fixed_round binary.Float64 8 AFloat64 msg st) as [(i & st' & H & _)|(e & H & _)]; eauto. }
  destruct (Ascii.eqb c "s").
  { unfold bind, onReader, advance, ret.
    pose proof (readPaddedString_no_panic (reader st)) as Hnp.
    destruct (readPaddedString (reader st)) as [[[s n]|e|p] r']; cbn [fst] in *.
    - left. eauto.
    - right. eauto.
    - now destruct (Hnp p). }
  destruct (Ascii.eqb c "b").
  { right. exists ErrInvalidType. reflexivity. }
  destruct (Ascii.eqb_spec c "t") as [->|_]; [now destruct Hc|].
  destruct (Ascii.eqb c "T"); [left; eexists _, _; reflexivity|].
  destruct (Ascii.eqb c "F"); [left; eexists _, _; reflexivity|].
  right. eexists. reflexivity.
Qed.

Lemma readArgument_b (msg : Message) (st : Cursor) :
  readArgument "b"%char msg st = (Err ErrInvalidType, st).
Proof. unfold readArgument, bind, onReader. cbn. now destruct st. Qed.

(** The loop over [pre ++ suf] continues with [suf] once [pre] is decoded. *)
Lemma decoded_loop (pre suf : bytes) :
  forall msg st msg' st',
    decoded pre msg st = Some (msg', st') ->
    readArguments_loop (pre ++ suf) msg st = readArguments_loop suf msg' st'.
Proof.
  induction pre as [|c pre IH]; intros msg st msg' st' H; cbn [decoded app] in *.
  - now injection H as <- <-.
  - cbn [readArguments_loop]. unfold bind at 1.
    destruct (readArgument c msg st) as [[[m|m]|e|p] st1]; try discriminate.
    now apply IH.
Qed.

Lemma Append_length (msg : Message) (a : Argument) :
  List.length (Arguments (Append msg [a])) = S (List.length (Arguments msg)).
Proof. unfold Append. cbn. rewrite length_app. cbn. lia. Qed.

(** ['t'] appends a Timetag when its payload is read. *)
Lemma readArgument_t (msg : Message) (st : Cursor) :
  (exists v st', readArgument "t"%char msg st
                 = (Ok (Next (Append msg [ATimetag (NewTimetagFromTimetag v)])), st')) \/
  (exists e st', readArgument "t"%char msg st = (Ok (ReturnNil msg), st') /\
                 fst (binary.Read binary.Uint64 (reader st)) = Err e).
Proof.
  unfold readArgument. cbn [Ascii.eqb Bool.eqb].
  unfold onReader, bind, advance, ret.
  pose proof (binary_Read_no_panic binary.Uint64 (reader st)) as Hnp.
  destruct (binary.Read binary.Uint64 (reader st)) as [[v|e|p] r']; cbn [fst] in *.
  - left. eauto.
  - right. eauto.
  - now destruct (Hnp p).
Qed.

(** Every decoded tag appends exactly one argument. *)
Lemma decoded_length (pre : bytes) :
  forall msg st msg' st',
    decoded pre msg st = Some (msg', st') ->
    List.length (Arguments msg') = (List.length (Arguments msg) + List.length pre)%nat.
Proof.
  induction pre as [|c pre IH]; intros msg st msg' st' H; cbn [decoded] in H.
  - injection H as <- _. cbn. lia.
  - destruct (readArgument c msg st) as [[[m|m]|e|p] st1] eqn:Hc; try discriminate.
    apply IH in H. rewrite H. cbn [List.length].
    assert (Hm : List.length (Arguments m) = S (List.length (Arguments msg))).
    { destruct (Ascii.eqb_spec c "t") as [->|Hne].
      - destruct (readArgument_t msg st) as [(v & st2 & Ht)|(e & st2 & Ht & _)];
          rewrite Ht in Hc; [|discriminate].
        injection Hc as <- _. apply Append_length.
      - destruct (readArgument_flow c msg st Hne) as [(a & st2 & Ha)|(e & He)].
        + rewrite Ha in Hc. injection Hc as <- _. apply Append_length.
        + rewrite Hc in He. discriminate. }
    lia.
Qed.

(** *** [readArguments] *)

Lemma readArguments_unfold (msg : Message) (st st1 : Cursor) (typetags : string) (n : Z) :
  onReader readPaddedString st = (Ok (typetags, n), st1) ->
  readArguments msg st =
    match typetags with
    | EmptyString => (Panic IndexOutOfRange, snd (advance n st1))
    | String c0 typetags =>
        if negb (Ascii.eqb c0 ",") then (Err ErrTypeTagString, snd (advance n st1))
        else readArguments_loop (list_ascii_of_string typetags) msg (snd (advance n st1))
    end.
Proof.
  intros H. unfold readArguments. unfold bind at 1. rewrite H.
  unfold bind at 1. cbn [advance snd].
  destruct typetags as [|c0 tags]; [reflexivity|].
  destruct (negb (Ascii.eqb c0 ",")); reflexivity.
Qed.

(** The check of the type-tag string: a string that is not empty and does
    not begin with [','] is refused with an error; the empty string makes
    [typetags[0]] panic. *)
Lemma readArguments_typetags_check (msg : Message) (st st1 : Cursor) (typetags : string) (n : Z) :
  onReader readPaddedString st = (Ok (typetags, n), st1) ->
  (typetags = EmptyString -> fst (readArguments msg st) = Panic IndexOutOfRange) /\
  (forall c0 rest, typetags = String c0 rest -> c0 <> ","%char ->
     fst (readArguments msg st) = Err ErrTypeTagString).
Proof.
  intros H. rewrite (readArguments_unfold msg st st1 typetags n H). split.
  - intros ->. reflexivity.
  - intros c0 rest -> Hc. destruct (Ascii.eqb_spec c0 ","); [contradiction|reflexivity].
Qed.

(** C10. Let the type-tag string be [","] followed by [pre ++ c :: rest],
    let the tags of [pre] be decoded, and let the payload read for the tag
    [c] fail with [e].  If [c] is ['t'], [readArguments] returns nil: the
    caller gets the message with the arguments of [pre] only, the Timetag is
    not among them.  For every other tag the error [e] is returned. *)
Theorem readArguments_payload_failure
    (msg : Message) (st st1 : Cursor) (pre rest : bytes) (c : byte) (n : Z)
    (msg' : Message) (st' : Cursor) (e : error) :
  onReader readPaddedString st
    = (Ok (String "," (string_of_list_ascii (pre ++ c :: rest)), n), st1) ->
  decoded pre msg (snd (advance n st1)) = Some (msg', st') ->
  payloadError c st' = Some e ->
  fst (readArguments msg st) = (if Ascii.eqb c "t" then Ok msg' else Err e) /\
  List.length (Arguments msg') = (List.length (Arguments msg) + List.length pre)%nat.
Proof.
  intros Htags Hpre Hpay. split; [|eapply decoded_length; eassumption].
  rewrite (readArguments_unfold msg st st1 _ n Htags). cbn [Ascii.eqb Bool.eqb negb].
  rewrite list_ascii_of_string_of_list_ascii.
  rewrite (decoded_loop pre (c :: rest) _ _ _ _ Hpre).
  cbn [readArguments_loop]. unfold bind at 1.
  unfold payloadError in Hpay. unfold readArgument.
  destruct (Ascii.eqb c "i") eqn:Ei.
  { rewrite (proj1 (Ascii.eqb_eq _ _) Ei). cbn [Ascii.eqb Bool.eqb].
    destruct (fixed_round binary.Int32 4 AInt32 msg' st') as [(i & s2 & _ & H)|(e' & H & H')];
      [rewrite H in Hpay; discriminate|].
    rewrite H' in Hpay. injection Hpay as ->.
    cbv zeta in H. destruct (bind _ _ st') as [[f|e2|p] s2]; cbn [fst] in *; congruence. }
  destruct (Ascii.eqb c "h") eqn:Eh.
  { rewrite (proj1 (Ascii.eqb_eq _ _) Eh). cbn [Ascii.eqb Bool.eqb].
    destruct (fixed_round binary.Int64 8 AInt64 msg' st') as [(i & s2 & _ & H)|(e' & H & H')];
      [rewrite H in Hpay; discriminate|].
    rewrite H' in Hpay. injection Hpay as ->.
    cbv zeta in H. destruct (bind _ _ st') as [[f|e2|p] s2]; cbn [fst] in *; congruence. }
  destruct (Ascii.eqb c "f") eqn:Ef.
  { rewrite (proj1 (Ascii.eqb_eq _ _) Ef). cbn [Ascii.eqb Bool.eqb].
    destruct (fixed_round binary.Float32 4 AFloat32 msg' st') as [(i & s2 & _ & H)|(e' & H & H')];
      [rewrite H in Hpay; discriminate|].
    rewrite H' in Hpay. injection Hpay as ->.
    cbv zeta in H. destruct (bind _ _ st') as [[f|e2|p] s2]; cbn [fst] in *; congruence. }
  destruct (Ascii.eqb c "d") eqn:Ed.
  { rewrite (proj1 (Ascii.eqb_eq _ _) Ed). cbn [Ascii.eqb Bool.eqb].
    destruct (fixed_round binary.Float64 8 AFloat64 msg' st') as [(i & s2 & _ & H)|(e' & H & H')];
      [rewrite H in Hpay; discriminate|].
    rewrite H' in Hpay. injection Hpay as ->.
    cbv zeta in H. destruct (bind _ _ st') as [[f|e2|p] s2]; cbn [fst] in *; congruence. }
  destruct (Ascii.eqb c "s") eqn:Es.
  { rewrite (proj1 (Ascii.eqb_eq _ _) Es). cbn [Ascii.eqb Bool.eqb].
    unfold bind, onReader.
    destruct (readPaddedString (reader st')) as [[[s k]|e'|p] r']; cbn [fst] in Hpay;
      try discriminate.
    now injection Hpay as ->. }
  destruct (Ascii.eqb c "b") eqn:Eb.
  { rewrite (proj1 (Ascii.eqb_eq _ _) Eb). cbn [Ascii.eqb Bool.eqb].
    rewrite readBlob_unfold in Hpay. cbn [fst] in Hpay. injection Hpay as <-. reflexivity. }
  destruct (Ascii.eqb c "t") eqn:Et; [|discriminate].
  unfold onReader.
  destruct (binary.Read binary.Uint64 (reader st')) as [[v|e'|p] r']; cbn [fst] in Hpay;
    try discriminate.
  reflexivity.
Qed.

Lemma readArguments_payload_failure_witness :
  fst (readArguments (NewMessage "/a" [])
         (cursorOver (",it" ++ nulls 1 ++ nulls 3 ++ "A" ++ "xyz")))
    = Ok (mkMessage "/a" [AInt32 65] None) /\
  fst (readArguments (NewMessage "/a" [])
         (cursorOver (",ih" ++ nulls 1 ++ nulls 3 ++ "A" ++ "xyz")))
    = Err ErrUnexpectedEOF.
Proof.
  split.
  - refine (proj1 (readArguments_payload_failure _ _ _ ["i"%char] [] "t"%char
                     _ _ _ _ _ _ _)).
    + vm_compute. reflexivity.
    + vm_compute. reflexivity.
    + vm_compute. reflexivity.
  - refine (proj1 (readArguments_payload_failure _ _ _ ["i"%char] [] "h"%char
                     _ _ _ _ _ _ _)).
    + vm_compute. reflexivity.
    + vm_compute. reflexivity.
    + vm_compute. reflexivity.
Defined.

(** *** Messages with a blob tag *)

(** When no ['t'] stands before a ['b'], the loop ends with an error: at the
    ['b'] at the latest. *)
Lemma readArguments_loop_blob (pre post : bytes) :
  ~ In "t"%char pre ->
  forall msg st, exists e, fst (readArguments_loop (pre ++ "b"%char :: post) msg st) = Err e.
Proof.
  induction pre as [|c pre IH]; intros Hpre msg st; cbn [app readArguments_loop].
  - exists ErrInvalidType. unfold bind. now rewrite readArgument_b.
  - assert (Hc : c <> "t"%char) by (intros ->; apply Hpre; now left).
    assert (Hpre' : ~ In "t"%char pre) by (intros H; apply Hpre; now right).
    unfold bind at 1.
    destruct (readArgument_flow c msg st Hc) as [(a & st' & Ha)|(e & He)].
    + rewrite Ha. apply (IH Hpre').
    + destruct (readArgument c msg st) as [[f|e'|p] st']; cbn [fst] in *;
        try discriminate. eauto.
Qed.

(** [readBlob] returns the error of the binary decoder for every input and
    consumes nothing.  Hence decoding a message fails whenever its type-tag
    string is [","] followed by tags among which a ['b'] occurs with no
    ['t'] before it. *)
Lemma readBlob_always_fails :
  (forall r : bufio.Reader, readBlob r = (Err ErrInvalidType, r)) /\
  (forall (st st1 st2 : Cursor) (a : string) (n n' : Z) (pre post : bytes),
     onReader readPaddedString st = (Ok (a, n), st1) ->
     onReader readPaddedString (snd (advance n st1))
       = (Ok (String "," (string_of_list_ascii (pre ++ "b"%char :: post)), n'), st2) ->
     ~ In "t"%char pre ->
     exists e, fst (readMessage st) = Err e).
Proof.
  split; [exact readBlob_unfold|].
  intros st st1 st2 a n n' pre post Haddr Htags Hpre.
  unfold readMessage. unfold bind at 1. rewrite Haddr.
  unfold bind at 1. cbn [advance].
  rewrite (readArguments_unfold _ _ _ _ _ Htags). cbn [Ascii.eqb Bool.eqb negb].
  rewrite list_ascii_of_string_of_list_ascii.
  apply readArguments_loop_blob. exact Hpre.
Qed.

Lemma readBlob_always_fails_witness :
  exists e, fst (readMessage
                   (cursorOver ("/a" ++ nulls 2 ++ ",ib" ++ nulls 1
                                ++ nulls 3 ++ "A" ++ nulls 3 ++ "A" ++ "x" ++ nulls 3)))
            = Err e.
Proof.
  refine (proj2 readBlob_always_fails _ _ _ _ _ _ ["i"%char] [] _ _ _).
  - vm_compute. reflexivity.
  - vm_compute. reflexivity.
  - intros [H|[]]. discriminate H.
Defined.

(** C9 at its failing input. The type-tag string [",tb"] contains ['b'], but
    the input ends before the Timetag: case ['t'] returns [nil] where every
    other case returns the read error, the ['b'] is never reached and the
    message decodes, without arguments.  With the eight bytes of the Timetag
    in place the ['b'] is reached and decoding fails, as the claim says. *)
Theorem blob_tag_after_truncated_timetag_decodes :
  ParsePacket ("/a" ++ nulls 2 ++ ",tb" ++ nulls 1)
    = Ok (Some (PMessage (NewMessage "/a" []))) /\
  ParsePacket ("/a" ++ nulls 2 ++ ",tb" ++ nulls 1 ++ nulls 8 ++ nulls 3 ++ "d")
    = Err ErrInvalidType.
Proof. split; vm_compute; reflexivity. Qed.

(** *** Registration *)

Lemma strings_Contains_char (a : string) (c : byte) :
  strings_Contains a (String c EmptyString) = true <-> In c (list_ascii_of_string a).
Proof.
  induction a as [|x a IH]; cbn [strings_Contains String.prefix list_ascii_of_string In].
  - split; [discriminate | intros []].
  - destruct (ascii_dec c x) as [->|Hne].
    + destruct a; split; auto.
    + rewrite IH. split; [now right|]. intros [Heq|Hin]; [now destruct Hne|exact Hin].
Qed.

Lemma AddMsgHandler_chars_None (chars : bytes) (a : string) :
  AddMsgHandler_chars chars a = None <->
  (forall c, In c chars -> ~ In c (list_ascii_of_string a)).
Proof.
  induction chars as [|chr chars IH]; cbn [AddMsgHandler_chars In].
  - split; [intros _ c [] | reflexivity].
  - destruct (strings_Contains a (String chr EmptyString)) eqn:Hc.
    + apply strings_Contains_char in Hc. split; [discriminate|].
      intros H. destruct (H chr (or_introl eq_refl) Hc).
    + rewrite IH. split.
      * intros H c [<-|Hin]; [|now apply H].
        intros Hin. apply strings_Contains_char in Hin. congruence.
      * intros H c Hin. apply H. now right.
Qed.

Lemma AddMsgHandler_chars_Some (chars : bytes) (a : string) (err : error) :
  AddMsgHandler_chars chars a = Some err ->
  exists c, In c chars /\ In c (list_ascii_of_string a) /\ err = ErrAddressChar c.
Proof.
  induction chars as [|chr chars IH]; cbn [AddMsgHandler_chars In]; [discriminate|].
  destruct (strings_Contains a (String chr EmptyString)) eqn:Hc.
  - intros [= <-]. apply strings_Contains_char in Hc. eauto.
  - intros H. destruct (IH H) as (c & Hin & Ha & He). eauto.
Qed.

Lemma addressExists_lookup {H : Type} (a : string) (hs : gmap string H) :
  addressExists a hs = true <-> is_Some (hs !! a).
Proof.
  unfold addressExists. rewrite existsb_exists. split.
  - intros ([k h] & Hin & Heq). cbn [fst] in Heq. apply String.eqb_eq in Heq. subst k.
    apply list_elem_of_In, elem_of_map_to_list in Hin. eauto.
  - intros [h Hh]. exists (a, h). split.
    + now apply list_elem_of_In, elem_of_map_to_list.
    + apply String.eqb_refl.
Qed.

(** C6. [AddMsgHandler] returns an error and leaves the registry as it was
    when the address contains one of the characters [* ? , [ ] { } #] or a
    space, and when the address is already registered; otherwise it returns
    nil and the registry has the handler under that address. *)
Theorem AddMsgHandler_spec {H : Type} (d : OSCDispatcher H) (a : string) (handler : H) :
  (hasReservedChar a ->
     exists c, In c (list_ascii_of_string reservedChars) /\
               AddMsgHandler d a handler = (Some (ErrAddressChar c), d)) /\
  (is_Some (handlers d !! a) ->
     exists err, AddMsgHandler d a handler = (Some err, d)) /\
  (~ hasReservedChar a -> handlers d !! a = None ->
     AddMsgHandler d a handler = (None, mkDispatcher (<[a := handler]> (handlers d)))).
Proof.
  unfold AddMsgHandler.
  destruct (AddMsgHandler_chars (list_ascii_of_string reservedChars) a) as [err|] eqn:Hchars.
  - destruct (AddMsgHandler_chars_Some _ _ _ Hchars) as (c & Hin & Ha & ->).
    split; [eauto|]. split; [eauto|].
    intros Hno. destruct Hno. exists c. auto.
  - pose proof (proj1 (AddMsgHandler_chars_None _ _) Hchars) as Hclean.
    split; [intros (c & Hin & Ha); destruct (Hclean c Hin Ha)|].
    split.
    + intros Hreg. apply addressExists_lookup in Hreg. rewrite Hreg. eauto.
    + intros _ Hfree.
      destruct (addressExists a (handlers d)) eqn:Hex; [|reflexivity].
      apply addressExists_lookup in Hex. rewrite Hfree in Hex. now destruct Hex.
Qed.

Lemma hasReservedChar_iff (a : string) :
  hasReservedChar a <->
  AddMsgHandler_chars (list_ascii_of_string reservedChars) a <> None.
Proof.
  rewrite AddMsgHandler_chars_None. unfold hasReservedChar. split.
  - intros (c & Hin & Ha) H. exact (H c Hin Ha).
  - intros H.
    destruct (AddMsgHandler_chars (list_ascii_of_string reservedChars) a) as [err|] eqn:E.
    + destruct (AddMsgHandler_chars_Some _ _ _ E) as (c & Hin & Ha & _). eauto.
    + destruct H. now apply AddMsgHandler_chars_None.
Qed.

Lemma AddMsgHandler_spec_witness :
  (exists c, AddMsgHandler (@NewOSCDispatcher nat) "/addr*" 1%nat
             = (Some (ErrAddressChar c), NewOSCDispatcher)) /\
  AddMsgHandler (@NewOSCDispatcher nat) "/addr" 1%nat
    = (None, mkDispatcher (<["/addr"%string := 1%nat]> ∅)) /\
  (exists err, AddMsgHandler (mkDispatcher (<["/addr"%string := 1%nat]> ∅)) "/addr" 2%nat
               = (Some err, mkDispatcher (<["/addr"%string := 1%nat]> ∅))).
Proof.
  split; [|split].
  - destruct (proj1 (AddMsgHandler_spec (@NewOSCDispatcher nat) "/addr*" 1%nat))
      as (c & _ & Hc).
    + apply hasReservedChar_iff. vm_compute. discriminate.
    + exists c. exact Hc.
  - apply (proj2 (proj2 (AddMsgHandler_spec (@NewOSCDispatcher nat) "/addr" 1%nat))).
    + intros Hres. apply hasReservedChar_iff in Hres. apply Hres. vm_compute. reflexivity.
    + reflexivity.
  - apply (proj1 (proj2 (AddMsgHandler_spec
                           (mkDispatcher (<["/addr"%string := 1%nat]> ∅)) "/addr" 2%nat))).
    exists 1%nat. vm_compute. reflexivity.
Defined.

(** *** The serve loop *)

Lemma Serve_loop_temporary (tempDelay : Z) (step : conn_step) (err : error)
    (conn' : list conn_step) :
  ReceivePacket step = Err err -> isTemporary err = true ->
  Serve_loop tempDelay (step :: conn')
    = (Sleep (backoff tempDelay) :: fst (Serve_loop (backoff tempDelay) conn'),
       snd (Serve_loop (backoff tempDelay) conn')).
Proof.
  intros Hr Ht. cbn [Serve_loop]. rewrite Hr, Ht.
  now destruct (Serve_loop (backoff tempDelay) conn').
Qed.

Lemma Serve_loop_ok (tempDelay : Z) (step : conn_step) (pkt : Packet)
    (conn' : list conn_step) :
  ReceivePacket step = Ok pkt ->
  Serve_loop tempDelay (step :: conn')
    = (GoDispatch pkt :: fst (Serve_loop 0 conn'), snd (Serve_loop 0 conn')).
Proof.
  intros Hr. cbn [Serve_loop]. rewrite Hr. now destruct (Serve_loop 0 conn').
Qed.

Lemma Serve_loop_fatal (tempDelay : Z) (step : conn_step) (err : error)
    (conn' : list conn_step) :
  ReceivePacket step = Err err -> isTemporary err = false ->
  Serve_loop tempDelay (step :: conn') = ([], Returned err).
Proof. intros Hr Ht. cbn [Serve_loop]. now rewrite Hr, Ht. Qed.

Lemma backoff_formula (tempDelay : Z) :
  0 <= tempDelay <= Second ->
  backoff tempDelay
    = (if tempDelay =? 0 then 5 * Millisecond else Z.min (2 * tempDelay) Second).
Proof.
  unfold backoff, int_mul, Second, Millisecond. intros H.
  destruct (Z.eqb_spec tempDelay 0) as [->|Hne].
  - vm_compute. reflexivity.
  - rewrite (wrap_int_small (tempDelay * 2)) by (unfold MinInt, MaxInt; lia).
    rewrite (wrap_int_small (1 * _)) by (unfold MinInt, MaxInt; lia).
    destruct (Z.ltb_spec (1 * 1000000000) (tempDelay * 2)); lia.
Qed.

Lemma nthDelay_range (i : nat) : 0 < nthDelay i <= Second.
Proof.
  unfold nthDelay, Second, Millisecond.
  assert (0 < 2 ^ Z.of_nat i) by (apply Z.pow_pos_nonneg; lia). lia.
Qed.

Lemma nthDelay_S (j : nat) : nthDelay (S j) = Z.min (2 * nthDelay j) Second.
Proof.
  unfold nthDelay. rewrite Nat2Z.inj_succ, Z.pow_succ_r by lia.
  generalize (2 ^ Z.of_nat j). intros p.
  unfold Second, Millisecond. lia.
Qed.

Lemma backoff_delayBefore (i : nat) : backoff (delayBefore i) = nthDelay i.
Proof.
  destruct i as [|j]; cbn [delayBefore].
  - vm_compute. reflexivity.
  - pose proof (nthDelay_range j) as Hr.
    rewrite backoff_formula by lia. rewrite nthDelay_S.
    destruct (Z.eqb_spec (nthDelay j) 0); [lia|]. reflexivity.
Qed.

Lemma Serve_loop_run (k : nat) (conn' : list conn_step) :
  forall i,
    Serve_loop (delayBefore i) (temporaryErrors k ++ conn')
    = (map Sleep (map nthDelay (seq i k)) ++ fst (Serve_loop (delayBefore (i + k)) conn'),
       snd (Serve_loop (delayBefore (i + k)) conn')).
Proof.
  induction k as [|k IH]; intros i.
  - rewrite Nat.add_0_r. cbn [temporaryErrors repeat app seq map].
    now destruct (Serve_loop (delayBefore i) conn').
  - cbn [temporaryErrors repeat app seq map].
    rewrite (Serve_loop_temporary _ _ (ErrNet true)) by reflexivity.
    rewrite backoff_delayBefore.
    change (nthDelay i) with (delayBefore (S i)) at 2 3.
    fold (temporaryErrors k). rewrite (IH (S i)). cbn [fst snd].
    now replace (S i + k)%nat with (i + S k)%nat by lia.
Qed.

(** C7. When [ReceivePacket] returns a temporary network error, [Serve]
    sleeps and receives again: after 5 ms when no delay is pending, else
    after twice the previous delay, and never more than 1 s; so a run of [k]
    consecutive temporary errors sleeps 5 ms, 10 ms, ... doubled each time and
    capped at 1 s.  A successful receive hands the packet to dispatch and
    resets the delay.  Any other error ends the loop and is returned to the
    caller. *)
Theorem Serve_backoff :
  (forall tempDelay step err conn',
     0 <= tempDelay <= Second ->
     ReceivePacket step = Err err -> isTemporary err = true ->
     let d := if tempDelay =? 0 then 5 * Millisecond else Z.min (2 * tempDelay) Second in
     Serve_loop tempDelay (step :: conn')
       = (Sleep d :: fst (Serve_loop d conn'), snd (Serve_loop d conn')) /\
     0 < d <= Second) /\
  (forall k conn',
     Serve (temporaryErrors k ++ conn')
       = (map Sleep (map nthDelay (seq 0 k)) ++ fst (Serve_loop (delayBefore k) conn'),
          snd (Serve_loop (delayBefore k) conn'))) /\
  (forall tempDelay step pkt conn',
     ReceivePacket step = Ok pkt ->
     Serve_loop tempDelay (step :: conn')
       = (GoDispatch pkt :: fst (Serve_loop 0 conn'), snd (Serve_loop 0 conn'))) /\
  (forall tempDelay step err conn',
     ReceivePacket step = Err err -> isTemporary err = false ->
     Serve_loop tempDelay (step :: conn') = ([], Returned err)).
Proof.
  split; [|split; [|split]].
  - intros tempDelay step err conn' Hd Hr Ht d.
    rewrite (Serve_loop_temporary _ _ _ _ Hr Ht), (backoff_formula _ Hd). fold d.
    split; [reflexivity|].
    unfold d, Second, Millisecond in *. destruct (Z.eqb_spec tempDelay 0); lia.
  - intros k conn'. exact (Serve_loop_run k conn' 0%nat).
  - exact Serve_loop_ok.
  - exact Serve_loop_fatal.
Qed.

Lemma Serve_backoff_witness :
  Serve_loop (5 * Millisecond) [ReadFromFails (ErrNet true)]
    = ([Sleep (10 * Millisecond)], Receiving) /\
  Serve_loop 0 [ReadFromFails (ErrNet false)] = ([], Returned (ErrNet false)).
Proof.
  split.
  - assert (Hd : 0 <= 5 * Millisecond <= Second) by (unfold Millisecond, Second; lia).
    destruct (proj1 Serve_backoff (5 * Millisecond) (ReadFromFails (ErrNet true))
                (ErrNet true) [] Hd eq_refl eq_refl) as [Hstep _].
    exact Hstep.
  - exact (proj2 (proj2 (proj2 Serve_backoff)) 0 (ReadFromFails (ErrNet false))
             (ErrNet false) [] eq_refl eq_refl).
Defined.

(** *** Decoding errors are not network errors *)

Lemma ends_plain_reader {A : Type} (m : M bufio.Reader A) (PE : error -> Prop) :
  (forall e, PE e -> plain e) -> ends PE never m -> ends plain indexOnly (onReader m).
Proof.
  intros HPE Hm. apply ends_onReader.
  eapply ends_weaken; [exact HPE | | exact Hm]. intros p [].
Qed.

Lemma binary_Read_plain (k : binary.kind) : ends plain indexOnly (onReader (binary.Read k)).
Proof.
  apply (ends_plain_reader _ (fun e => truncation e \/ e = ErrInvalidType));
    [intros e [[->| ->]| ->]; reflexivity | apply binary_Read_ends].
Qed.

Lemma readPaddedString_plain : ends plain indexOnly (onReader readPaddedString).
Proof.
  apply (ends_plain_reader _ (fun e => e = EOF)); [now intros e -> | apply readPaddedString_ends].
Qed.

Lemma readBlob_plain : ends plain indexOnly (onReader readBlob).
Proof.
  apply (ends_plain_reader _ (fun e => e = ErrInvalidType));
    [now intros e -> | apply readBlob_ends].
Qed.

Lemma readArgument_plain (c : byte) (msg : Message) : ends plain indexOnly (readArgument c msg).
Proof.
  unfold readArgument.
  repeat match goal with
  | |- ends _ _ (if ?b then _ else _) => destruct b
  | |- ends _ _ (bind _ _) => apply ends_bind; [|intros]
  | |- ends _ _ (match ?x with (_, _) => _ end) => destruct x
  | |- ends _ _ (onReader (binary.Read _)) => apply binary_Read_plain
  | |- ends _ _ (onReader readPaddedString) => apply readPaddedString_plain
  | |- ends _ _ (onReader readBlob) => apply readBlob_plain
  | |- ends _ _ (advance _) => apply ends_advance
  | |- ends _ _ (ret _) => apply ends_ret
  end.
  - intros st. pose proof (binary_Read_plain binary.Uint64 st) as Hr.
    destruct (onReader (binary.Read binary.Uint64) st) as [[v|e|p] st'];
      [exact I | exact I | exact Hr].
  - intros st. reflexivity.
Qed.

Lemma readArguments_loop_plain (typetags : bytes) :
  forall msg, ends plain indexOnly (readArguments_loop typetags msg).
Proof.
  induction typetags as [|c rest IH]; intros msg; cbn [readArguments_loop].
  - apply ends_ret.
  - apply ends_bind; [apply readArgument_plain|].
    intros [m|m]; [apply IH | apply ends_ret].
Qed.

Lemma readArguments_plain (msg : Message) : ends plain indexOnly (readArguments msg).
Proof.
  unfold readArguments.
  apply ends_bind; [apply readPaddedString_plain|]. intros [typetags n].
  apply ends_bind; [apply ends_advance|]. intros _.
  destruct typetags as [|c0 tags]; [intros st; reflexivity|].
  destruct (negb (Ascii.eqb c0 ",")); [intros st; reflexivity|].
  apply readArguments_loop_plain.
Qed.

Lemma readMessage_plain : ends plain indexOnly readMessage.
Proof.
  unfold readMessage.
  apply ends_bind; [apply readPaddedString_plain|]. intros [a n].
  apply ends_bind; [apply ends_advance|]. intros _.
  apply readArguments_plain.
Qed.

Lemma ends_any {S A : Type} (m : M S A) : ends plain indexOnly m -> ends plain any m.
Proof. apply ends_weaken; [auto | intros; exact I]. Qed.

Lemma readPacket_plain (fuel : nat) :
  forall end_,
    ends plain any (readPacket fuel end_) /\
    ends plain any (readBundle fuel end_) /\
    (forall bundle, ends plain any (readBundle_loop fuel end_ bundle)).
Proof.
  induction fuel as [|fuel IH]; intros end_.
  - split; [|split]; intros; intros st; exact I.
  - destruct (IH end_) as (IHp & IHb & IHl).
    split; [|split]; cbn [readPacket readBundle readBundle_loop].
    + apply ends_bind.
      { apply ends_any, (ends_plain_reader _ (fun e => e = EOF)); [now intros e ->|].
        intros r. unfold bufio.Peek1.
        destruct (bufio.buffered r); [|exact I].
        destruct (bufio.source r); [reflexivity | exact I]. }
      intros buf0.
      destruct (Ascii.eqb buf0 "/").
      { apply ends_bind; [apply ends_any, readMessage_plain | intros; apply ends_ret]. }
      destruct (Ascii.eqb buf0 "#"); [|apply ends_ret].
      apply ends_bind; [apply IHb | intros; apply ends_ret].
    + apply ends_bind; [apply ends_any, readPaddedString_plain|]. intros [startTag n].
      apply ends_bind; [apply ends_advance|]. intros _.
      destruct (negb (String.eqb startTag bundleTag)); [intros st; reflexivity|].
      apply ends_bind; [apply ends_any, binary_Read_plain|]. intros timeTag.
      apply ends_bind; [apply ends_advance|]. intros _. apply IHl.
    + intros bundle st. destruct (start st <? end_); [|exact I].
      revert st. apply ends_bind; [apply ends_any, binary_Read_plain|]. intros length.
      apply ends_bind; [apply ends_advance|]. intros _.
      apply ends_bind; [apply IHp|]. intros pkt.
      apply ends_bind; [|intros; apply IHl].
      intros st. unfold pure. cbn [fst].
      destruct bundle as [t ms bs a0]. destruct pkt as [[m|b]|]; cbn; auto. reflexivity.
Qed.

Lemma ReceivePacket_error_plain (payload : bytes) (from : NetAddr) (err : error) :
  ReceivePacket (ReadFromOk payload from) = Err err -> isTemporary err = false.
Proof.
  unfold ReceivePacket.
  match goal with
  | |- context [fst (readPacket ?f ?n ?st)] =>
      pose proof (proj1 (readPacket_plain f n) st) as Hp;
      destruct (fst (readPacket f n st)) as [[pkt|]|e|p]
  end; try discriminate.
  intros [= <-]. exact Hp.
Qed.

(** C3, as the code has it. For a received datagram on which
    [ReceivePacket] returns a packet, [Serve] hands the packet to dispatch
    and goes on with the next receive.  When [ReceivePacket] returns an error
    for the datagram, that error is not a temporary network error, and
    [Serve] does not go on: it stops and returns the error to its caller. *)
Theorem Serve_on_datagram (tempDelay : Z) (payload : bytes) (from : NetAddr)
    (conn' : list conn_step) :
  (forall pkt,
     ReceivePacket (ReadFromOk payload from) = Ok pkt ->
     Serve_loop tempDelay (ReadFromOk payload from :: conn')
       = (GoDispatch pkt :: fst (Serve_loop 0 conn'), snd (Serve_loop 0 conn'))) /\
  (forall err,
     ReceivePacket (ReadFromOk payload from) = Err err ->
     isTemporary err = false /\
     Serve_loop tempDelay (ReadFromOk payload from :: conn') = ([], Returned err)).
Proof.
  split.
  - intros pkt Hr. now apply Serve_loop_ok.
  - intros err Hr. pose proof (ReceivePacket_error_plain _ _ _ Hr) as Hp.
    split; [exact Hp | now apply Serve_loop_fatal].
Qed.

Lemma Serve_on_datagram_witness :
  let bad := ReadFromOk (list_ascii_of_string ("/a" ++ nulls 2 ++ ",x" ++ nulls 2)) "peer" in
  let good := ReadFromOk (list_ascii_of_string ("/a" ++ nulls 2 ++ "," ++ nulls 3)) "peer" in
  Serve_loop 0 [bad; good] = ([], Returned (ErrTypeTag "x"%char)) /\
  Serve_loop 0 [good]
    = ([GoDispatch (PMessage (mkMessage "/a" [] (Some "peer"%string)))], Receiving).
Proof.
  intros bad good. split.
  - assert (Hbad : ReceivePacket bad = Err (ErrTypeTag "x"%char))
      by (vm_compute; reflexivity).
    exact (proj2 (proj2 (Serve_on_datagram 0 _ _ [good]) _ Hbad)).
  - assert (Hgood : ReceivePacket good
                    = Ok (PMessage (mkMessage "/a" [] (Some "peer"%string))))
      by (vm_compute; reflexivity).
    exact (proj1 (Serve_on_datagram 0 _ _ []) _ Hgood).
Defined.

(** C3, as stated, fails.  A datagram with an unknown type tag makes
    [ReceivePacket] return an error on which [Serve] returns instead of going
    on with the next receive; a datagram that begins with neither ['/'] nor
    ['#'], and a datagram that holds only an address, make the receive path
    panic. *)
Lemma malformed_datagram_ends_Serve :
  let bad := ReadFromOk (list_ascii_of_string ("/a" ++ nulls 2 ++ ",x" ++ nulls 2)) "peer" in
  let good := ReadFromOk (list_ascii_of_string ("/a" ++ nulls 2 ++ "," ++ nulls 3)) "peer" in
  let other := ReadFromOk (list_ascii_of_string "x") "peer" in
  let bare := ReadFromOk (list_ascii_of_string "/a") "peer" in
  (ReceivePacket bad = Err (ErrTypeTag "x"%char) /\
   Serve [bad; good] = ([], Returned (ErrTypeTag "x"%char))) /\
  (ReceivePacket other = Panic NilDereference /\
   Serve [other; good] = ([], Crashed NilDereference)) /\
  (ReceivePacket bare = Panic IndexOutOfRange /\
   Serve [bare; good] = ([], Crashed IndexOutOfRange)).
Proof.
  intros bad good other bare.
  split; [|split]; (split; vm_compute; reflexivity).
Qed.

(** *** Dispatch *)

Lemma dispatchTo_calls {H : Type} (msg : Message) (entries : list (string * H)) :
  forall calls,
    dispatchTo msg entries = Some (Ok calls) ->
    calls = map (fun ah => (snd ah, msg))
                (List.filter (fun ah => matched msg (fst ah)) entries).
Proof.
  induction entries as [|[a h] entries IH]; intros calls; cbn [dispatchTo List.filter].
  - now intros [= <-].
  - unfold matched at 1. cbn [fst].
    destruct (Match msg a) as [[[|]|e|p]|]; try discriminate.
    + destruct (dispatchTo msg entries) as [[calls'|e|p]|]; try discriminate.
      intros [= <-]. cbn [map snd]. f_equal. now apply IH.
    + apply IH.
Qed.

Lemma NoDup_fst_filter {A B : Type} (f : A * B -> bool) (l : list (A * B)) :
  NoDup (map fst l) -> NoDup (map fst (List.filter f l)).
Proof.
  induction l as [|x l IH]; cbn [map List.filter]; [auto|].
  intros Hnd. apply NoDup_cons in Hnd. destruct Hnd as [Hx Hnd].
  destruct (f x); [|auto]. cbn [map]. apply NoDup_cons. split; [|auto].
  intros Hin. apply Hx. apply list_elem_of_In. apply list_elem_of_In in Hin.
  apply in_map_iff in Hin. destruct Hin as (y & Hy & Hin).
  apply filter_In in Hin. apply in_map_iff. exists y. tauto.
Qed.

Lemma NoDup_fst_map_to_list' {H : Type} (m : gmap string H) :
  NoDup (map fst (map_to_list m)).
Proof.
  pose proof (NoDup_fst_map_to_list m) as Hnd.
  replace (map fst (map_to_list m)) with ((map_to_list m).*1); [exact Hnd|].
  generalize (map_to_list m). intros l. induction l as [|x l IH]; cbn; [reflexivity|].
  now rewrite <- IH.
Qed.

(** The translation of [getRegEx] *)

Lemma append_cons (c : byte) (s1 s2 : string) :
  (String c s1 ++ s2)%string = String c (s1 ++ s2)%string.
Proof. reflexivity. Qed.

Lemma append_nil_l (s : string) : (EmptyString ++ s)%string = s.
Proof. reflexivity. Qed.

Lemma append_assoc (s1 s2 s3 : string) :
  ((s1 ++ s2) ++ s3)%string = (s1 ++ (s2 ++ s3))%string.
Proof.
  induction s1 as [|c s1 IH]; [reflexivity|]. rewrite !append_cons. now rewrite IH.
Qed.

Lemma strings_Replace_app (s1 s2 : string) (old : byte) (new : string) :
  strings_Replace (s1 ++ s2) old new
    = (strings_Replace s1 old new ++ strings_Replace s2 old new)%string.
Proof.
  induction s1 as [|c s1 IH]; [reflexivity|].
  rewrite append_cons. cbn [strings_Replace]. rewrite IH.
  destruct (Ascii.eqb c old); [now rewrite append_assoc|now rewrite append_cons].
Qed.

Lemma getRegEx_expr_app (s1 s2 : string) :
  getRegEx_expr (s1 ++ s2) = (getRegEx_expr s1 ++ getRegEx_expr s2)%string.
Proof.
  unfold getRegEx_expr, getRegEx_table. cbn [fold_left fst snd].
  now rewrite !strings_Replace_app.
Qed.

Lemma getRegEx_expr_char (c : byte) :
  getRegEx_expr (String c EmptyString) = translateChar c.
Proof. destruct c as [[] [] [] [] [] [] [] []]; reflexivity. Qed.

Lemma getRegEx_expr_translation (pattern : string) :
  getRegEx_expr pattern = translation pattern.
Proof.
  induction pattern as [|c pattern IH]; [reflexivity|].
  change (String c pattern) with (String c EmptyString ++ pattern)%string.
  rewrite getRegEx_expr_app, getRegEx_expr_char, IH. reflexivity.
Qed.

(** Matching by derivatives decides the language *)

Lemma lang_concat_inv (r1 r2 : regexp.Regexp) (s : bytes) :
  lang (regexp.Concat r1 r2) s -> exists s1 s2, s = s1 ++ s2 /\ lang r1 s1 /\ lang r2 s2.
Proof. inversion 1; subst; eauto. Qed.

Lemma lang_alternate_inv (r1 r2 : regexp.Regexp) (s : bytes) :
  lang (regexp.Alternate r1 r2) s -> lang r1 s \/ lang r2 s.
Proof. inversion 1; subst; auto. Qed.

Lemma lang_star_inv (r : regexp.Regexp) (s : bytes) :
  lang (regexp.Star r) s ->
  s = [] \/ exists c s1 s2, s = c :: s1 ++ s2 /\ lang r (c :: s1) /\ lang (regexp.Star r) s2.
Proof. inversion 1; subst; eauto 8. Qed.

Lemma lang_nomatch_inv (s : bytes) : ~ lang regexp.NoMatch s.
Proof. inversion 1. Qed.

Lemma lang_empty_inv (s : bytes) : lang regexp.EmptyMatch s -> s = [].
Proof. inversion 1; reflexivity. Qed.

Lemma nullable_lang (r : regexp.Regexp) : regexp.nullable r = true <-> lang r [].
Proof.
  induction r; cbn [regexp.nullable]; split; intros Hn; try discriminate; auto;
    try (inversion Hn; fail).
  - apply andb_true_iff in Hn as [H1 H2]. apply (lang_concat _ _ [] []); tauto.
  - apply lang_concat_inv in Hn as (s1 & s2 & Hs & H1 & H2).
    symmetry in Hs. apply app_eq_nil in Hs as [-> ->]. apply andb_true_iff. tauto.
  - apply orb_true_iff in Hn as [Hn|Hn]; [apply lang_left|apply lang_right]; tauto.
  - apply orb_true_iff. apply lang_alternate_inv in Hn. tauto.
Qed.

Lemma lang_mkConcat (r1 r2 : regexp.Regexp) (s : bytes) :
  lang (regexp.mkConcat r1 r2) s <-> lang (regexp.Concat r1 r2) s.
Proof.
  destruct r1; cbn [regexp.mkConcat]; try tauto; split; intros Hl.
  - now apply lang_nomatch_inv in Hl.
  - apply lang_concat_inv in Hl as (s1 & s2 & _ & H1 & _). now apply lang_nomatch_inv in H1.
  - apply (lang_concat _ _ [] s); auto.
  - apply lang_concat_inv in Hl as (s1 & s2 & -> & H1 & H2).
    apply lang_empty_inv in H1 as ->. exact H2.
Qed.

Lemma lang_mkAlternate (r1 r2 : regexp.Regexp) (s : bytes) :
  lang (regexp.mkAlternate r1 r2) s <-> lang (regexp.Alternate r1 r2) s.
Proof.
  split.
  - destruct r1, r2; cbn [regexp.mkAlternate]; auto.
  - intros Hl. apply lang_alternate_inv in Hl as [Hl|Hl];
      destruct r1, r2; cbn [regexp.mkAlternate]; auto;
      now apply lang_nomatch_inv in Hl.
Qed.

Lemma deriv_lang (r : regexp.Regexp) :
  forall c s, lang (regexp.deriv c r) s <-> lang r (c :: s).
Proof.
  induction r as [| |a| | |negated ranges|r1 IH1 r2 IH2|r1 IH1 r2 IH2|r IH]; intros c s;
    cbn [regexp.deriv].
  - split; intros Hl; inversion Hl.
  - split; intros Hl; inversion Hl.
  - destruct (Ascii.eqb_spec a c) as [->|Hne]; split; intros Hl; inversion Hl; subst; auto.
    now destruct Hne.
  - destruct (Ascii.eqb_spec c "010"%char) as [->|Hne]; split; intros Hl;
      inversion Hl; subst; auto.
    match goal with H : _ <> newline |- _ => now destruct H end.
  - split; intros Hl; inversion Hl; subst; auto.
  - fold (inRanges negated ranges c).
    destruct (inRanges negated ranges c) eqn:Hin; split; intros Hl; inversion Hl; subst; auto.
    congruence.
  - rewrite lang_mkAlternate. split; intros Hl.
    + apply lang_alternate_inv in Hl as [Hleft|Hright].
      * apply lang_mkConcat, lang_concat_inv in Hleft as (s1 & s2 & -> & H1 & H2).
        apply IH1 in H1. apply (lang_concat _ _ (c :: s1) s2); auto.
      * destruct (regexp.nullable r1) eqn:Hn; [|now apply lang_nomatch_inv in Hright].
        apply nullable_lang in Hn. apply IH2 in Hright.
        apply (lang_concat _ _ [] (c :: s)); auto.
    + apply lang_concat_inv in Hl as (s1 & s2 & Hs & H1 & H2).
      destruct s1 as [|x s1]; cbn [app] in Hs.
      * subst s2. apply lang_right. apply nullable_lang in H1. rewrite H1. now apply IH2.
      * injection Hs as <- ->. apply lang_left, lang_mkConcat. apply lang_concat; auto.
        now apply IH1.
  - rewrite lang_mkAlternate. split; intros Hl; apply lang_alternate_inv in Hl as [Hl|Hl].
    + apply lang_left. now apply IH1.
    + apply lang_right. now apply IH2.
    + apply lang_left. now apply IH1.
    + apply lang_right. now apply IH2.
  - rewrite lang_mkConcat. split; intros Hl.
    + apply lang_concat_inv in Hl as (s1 & s2 & -> & H1 & H2).
      apply IH in H1. now apply lang_star_cons.
    + apply lang_star_inv in Hl as [Hl|(x & s1 & s2 & Hs & H1 & H2)]; [discriminate|].
      injection Hs as <- ->. apply lang_concat; auto. now apply IH.
Qed.

Lemma matches_lang (s : bytes) :
  forall r, regexp.matches r s = true <-> lang r s.
Proof.
  induction s as [|c s IH]; intros r; cbn [regexp.matches].
  - apply nullable_lang.
  - rewrite IH. apply deriv_lang.
Qed.

Lemma lang_star_any (s : bytes) : lang (regexp.Star regexp.AnyChar) s.
Proof.
  induction s as [|c s IH]; [constructor|].
  apply (lang_star_cons _ c [] s); auto.
Qed.

(** [MatchString] looks for a substring in the language. *)
Lemma MatchString_lang (re : regexp.Regexp) (a : string) :
  regexp.isASCII (list_ascii_of_string a) = true ->
  exists b, regexp.MatchString re a = Some b /\
            (b = true <-> exists pre mid post,
                            list_ascii_of_string a = pre ++ mid ++ post /\ lang re mid).
Proof.
  intros Hascii. unfold regexp.MatchString. rewrite Hascii.
  eexists. split; [reflexivity|]. rewrite matches_lang. split.
  - intros Hl. apply lang_concat_inv in Hl as (pre & s2 & -> & _ & H2).
    apply lang_concat_inv in H2 as (mid & post & -> & H3 & _).
    exists pre, mid, post. auto.
  - intros (pre & mid & post & -> & Hmid).
    apply lang_concat; [apply lang_star_any|]. apply lang_concat; [exact Hmid|apply lang_star_any].
Qed.

(** Flat patterns *)

Lemma list_ascii_of_string_app (s1 s2 : string) :
  list_ascii_of_string (s1 ++ s2) = list_ascii_of_string s1 ++ list_ascii_of_string s2.
Proof.
  induction s1 as [|c s1 IH]; [reflexivity|].
  rewrite append_cons. cbn [list_ascii_of_string app]. now rewrite IH.
Qed.

Lemma parse_item (c : byte) (rest : bytes) (top : regexp.frame) (open : list regexp.frame) :
  flatChar c = true ->
  regexp.parse (list_ascii_of_string (translateChar c) ++ rest) top open None
    = regexp.parse rest (pushItem top c) open None.
Proof.
  destruct c as [[] [] [] [] [] [] [] []]; intros Hc; try discriminate Hc; reflexivity.
Qed.

Lemma translate_item (c : byte) :
  flatChar c = true ->
  regexp.isASCII (list_ascii_of_string (translateChar c)) = true /\
  (List.length (list_ascii_of_string (translateChar c)) <= 2)%nat.
Proof.
  destruct c as [[] [] [] [] [] [] [] []]; intros Hc; try discriminate Hc;
    (split; [reflexivity|cbn; lia]).
Qed.

Lemma parse_flat (pattern : string) :
  forall (rest : bytes) (top : regexp.frame) (open : list regexp.frame),
    flatPattern pattern = true ->
    regexp.parse (list_ascii_of_string (translation pattern) ++ rest) top open None
      = regexp.parse rest
          (fold_left pushItem (list_ascii_of_string pattern) top) open None.
Proof.
  unfold flatPattern.
  induction pattern as [|c pattern IH]; intros rest top open Hflat; [reflexivity|].
  cbn [list_ascii_of_string forallb] in Hflat. apply andb_true_iff in Hflat as [Hc Hp].
  cbn [translation list_ascii_of_string fold_left].
  rewrite list_ascii_of_string_app, <- app_assoc, (parse_item _ _ _ _ Hc).
  now apply IH.
Qed.

Lemma translation_flat (pattern : string) :
  flatPattern pattern = true ->
  regexp.isASCII (list_ascii_of_string (translation pattern)) = true /\
  (List.length (list_ascii_of_string (translation pattern))
   <= 2 * String.length pattern)%nat.
Proof.
  unfold flatPattern, regexp.isASCII.
  induction pattern as [|c pattern IH]; intros Hflat; [split; [reflexivity|cbn; lia]|].
  cbn [list_ascii_of_string forallb] in Hflat. apply andb_true_iff in Hflat as [Hc Hp].
  destruct (IH Hp) as [IH1 IH2]. destruct (translate_item c Hc) as [H1 H2].
  cbn [translation String.length].
  rewrite list_ascii_of_string_app, forallb_app, length_app.
  unfold regexp.isASCII in H1. rewrite H1, IH1. split; [reflexivity|lia].
Qed.

Lemma pushItems_frame (p : bytes) :
  forall f,
    regexp.alts (fold_left pushItem p f) = regexp.alts f /\
    regexp.seq (fold_left pushItem p f) = rev (map itemRegexp p) ++ regexp.seq f.
Proof.
  induction p as [|c p IH]; intros f; cbn [fold_left map rev]; [auto|].
  destruct (IH (pushItem f c)) as [-> ->]. cbn [pushItem regexp.alts regexp.seq].
  now rewrite <- app_assoc.
Qed.

(** The expression [getRegEx] builds from a flat pattern compiles to the
    concatenation of its items. *)
Lemma getRegEx_flat (pattern : string) :
  flatPattern pattern = true -> (String.length pattern <= 256)%nat ->
  getRegEx pattern = Some (Ok (flatRegexp (list_ascii_of_string pattern))).
Proof.
  intros Hflat Hlen. unfold getRegEx, regexp.Compile.
  rewrite getRegEx_expr_translation.
  destruct (translation_flat pattern Hflat) as [-> Hsize]. cbn [negb].
  destruct (Nat.ltb_spec regexp.maxModelled
              (List.length (list_ascii_of_string (translation pattern)))) as [Hbig|_].
  { unfold regexp.maxModelled in Hbig. lia. }
  rewrite <- (app_nil_r (list_ascii_of_string (translation pattern))).
  rewrite (parse_flat pattern [] _ _ Hflat). cbn [regexp.parse].
  unfold regexp.close.
  destruct (pushItems_frame (list_ascii_of_string pattern) regexp.emptyFrame) as [-> ->].
  cbn [regexp.emptyFrame regexp.alts regexp.seq fold_right]. rewrite app_nil_r.
  unfold regexp.concat_of, flatRegexp.
  rewrite <- fold_left_rev_right, rev_involutive. reflexivity.
Qed.

Lemma lang_many (run : bytes) :
  lang (regexp.Star regexp.AnyCharNotNL) run <-> ~ In newline run.
Proof.
  split.
  - induction run as [|c run IH]; intros Hl Hin; [destruct Hin|].
    apply lang_star_inv in Hl as [Hl|(x & s1 & s2 & Hs & H1 & H2)]; [discriminate|].
    inversion H1; subst. cbn [app] in Hs. injection Hs as -> ->.
    destruct Hin as [Hin|Hin]; [congruence|]. now apply IH.
  - induction run as [|c run IH]; intros Hno; [constructor|].
    apply (lang_star_cons _ c [] run).
    + constructor. intros ->. apply Hno. now left.
    + apply IH. intros Hin. apply Hno. now right.
Qed.

Lemma literalChar_not_wildcard (c : byte) :
  literalChar c = true -> itemRegexp c = regexp.Literal c.
Proof. destruct c as [[] [] [] [] [] [] [] []]; intros Hc; try discriminate Hc; reflexivity. Qed.

Lemma wildcard_not_literal :
  literalChar "?"%char = false /\ literalChar "*"%char = false.
Proof. split; reflexivity. Qed.

Lemma flatRegexp_lang (p : bytes) :
  forallb flatChar p = true ->
  forall s, lang (flatRegexp p) s <-> oscMatch p s.
Proof.
  unfold flatRegexp.
  induction p as [|c p IH]; intros Hflat s; cbn [map fold_right].
  - split; intros Hl; [apply lang_empty_inv in Hl as ->; constructor|].
    inversion Hl; constructor.
  - cbn [forallb] in Hflat. apply andb_true_iff in Hflat as [Hc Hp].
    specialize (IH Hp). unfold flatChar in Hc.
    destruct wildcard_not_literal as [Hq Hs].
    split.
    + intros Hl. apply lang_concat_inv in Hl as (s1 & s2 & -> & H1 & H2).
      apply IH in H2.
      destruct (literalChar c) eqn:Hlit.
      * rewrite (literalChar_not_wildcard c Hlit) in H1. inversion H1; subst.
        now apply match_literal.
      * cbn [orb] in Hc. unfold itemRegexp in H1.
        destruct (Ascii.eqb_spec c "?"%char) as [->|Hnq].
        -- inversion H1; subst. now apply match_one.
        -- destruct (Ascii.eqb_spec c "*"%char) as [->|Hns]; [|discriminate Hc].
           apply lang_many in H1. now apply match_many.
    + intros Hm. inversion Hm as [|? ? s' Hlit Hrest|x ? s' Hx Hrest|run ? s' Hrun Hrest]; subst.
      * rewrite (literalChar_not_wildcard c Hlit).
        apply (lang_concat _ _ [c] s'); [constructor|now apply IH].
      * apply (lang_concat _ _ [x] s'); [now constructor|now apply IH].
      * apply lang_concat; [now apply lang_many|now apply IH].
Qed.

(** [Match] on a flat pattern. *)
Lemma Match_flat (msg : Message) (a : string) :
  flatPattern (Address msg) = true -> (String.length (Address msg) <= 256)%nat ->
  regexp.isASCII (list_ascii_of_string a) = true ->
  exists b, Match msg a = Some (Ok b) /\
            (b = true <-> exists pre mid post,
                            list_ascii_of_string a = pre ++ mid ++ post /\
                            oscMatch (list_ascii_of_string (Address msg)) mid).
Proof.
  intros Hflat Hlen Hascii. unfold Match. rewrite (getRegEx_flat _ Hflat Hlen).
  destruct (MatchString_lang (flatRegexp (list_ascii_of_string (Address msg))) a Hascii)
    as (b & -> & Hb).
  exists b. split; [now destruct b|]. rewrite Hb.
  split; intros (pre & mid & post & Ha & Hmid); exists pre, mid, post; split; auto;
    now apply (flatRegexp_lang _ Hflat).
Qed.


Lemma dispatchTo_defined {H : Type} (msg : Message) (entries : list (string * H)) :
  (forall a h, In (a, h) entries -> exists b, Match msg a = Some (Ok b)) ->
  dispatchTo msg entries
    = Some (Ok (map (fun ah => (snd ah, msg))
                    (List.filter (fun ah => matched msg (fst ah)) entries))).
Proof.
  induction entries as [|[a h] entries IH]; intros Hdef; cbn [dispatchTo List.filter].
  - reflexivity.
  - destruct (Hdef a h (or_introl eq_refl)) as [b Hb].
    assert (Hrest : forall a' h', In (a', h') entries -> exists b, Match msg a' = Some (Ok b)).
    { intros a' h' Hin. apply (Hdef a' h'). right. exact Hin. }
    assert (Hm : matched msg a = b) by (unfold matched; rewrite Hb; now destruct b).
    rewrite (IH Hrest). cbn [fst]. rewrite Hm, Hb. now destruct b.
Qed.

Lemma Dispatch_entries {H : Type} (d : OSCDispatcher H) (msg : Message) :
  (forall a h, handlers d !! a = Some h -> exists b, Match msg a = Some (Ok b)) ->
  exists entries : list (string * H),
    NoDup (map fst entries) /\
    (forall a h, In (a, h) entries <->
                 handlers d !! a = Some h /\ Match msg a = Some (Ok true)) /\
    Dispatch d (Some (PMessage msg)) = Some (Ok (map (fun ah => (snd ah, msg)) entries)).
Proof.
  intros Hdef.
  exists (List.filter (fun ah => matched msg (fst ah)) (map_to_list (handlers d))).
  split; [apply NoDup_fst_filter, NoDup_fst_map_to_list'|]. split.
  - intros a h. rewrite filter_In. cbn [fst].
    rewrite <- list_elem_of_In, elem_of_map_to_list.
    unfold matched. destruct (Match msg a) as [[[|]|e|p]|]; intuition congruence.
  - cbn [Dispatch]. apply dispatchTo_defined.
    intros a h Hin. apply (Hdef a h).
    now apply elem_of_map_to_list, list_elem_of_In.
Qed.

(** C4. Dispatching a Message runs over every registered address and calls,
    once each, exactly the handlers of the addresses that the Message's
    address, compiled as a pattern, matches; it does so whenever [Match]
    gives an answer for the registered addresses.  The pattern is translated
    one character at a time ([translation]).  For a pattern of literal
    characters, ['?'] and ['*'] and a registry of ASCII addresses, [Match]
    answers, and answers [true] exactly when some substring of the registered
    address matches the pattern ([oscMatches]): those are the handlers
    called.  In particular, with a single handler registered at ["/a/b"],
    dispatching a Message with address ["/a/b"] calls that handler once and
    nothing else; a group ["/a/{b,c}"] calls the handlers of ["/a/b"] and
    ["/a/c"] and not the one of ["/a/d"]; a class ["/[a-c]"] calls the handler
    of ["/a"] and not the one of ["/d"]. *)
Theorem Dispatch_message {H : Type} :
  (forall (d : OSCDispatcher H) (msg : Message),
     (forall a h, handlers d !! a = Some h -> exists b, Match msg a = Some (Ok b)) ->
     exists entries : list (string * H),
       NoDup (map fst entries) /\
       (forall a h, In (a, h) entries <->
                    handlers d !! a = Some h /\ Match msg a = Some (Ok true)) /\
       Dispatch d (Some (PMessage msg))
         = Some (Ok (map (fun ah => (snd ah, msg)) entries))) /\
  (forall pattern : string, getRegEx_expr pattern = translation pattern) /\
  (forall (msg : Message) (a : string),
     flatPattern (Address msg) = true -> (String.length (Address msg) <= 256)%nat ->
     asciiString a ->
     exists b, Match msg a = Some (Ok b) /\ (b = true <-> oscMatches (Address msg) a)) /\
  (forall (d : OSCDispatcher H) (msg : Message),
     flatPattern (Address msg) = true -> (String.length (Address msg) <= 256)%nat ->
     (forall a h, handlers d !! a = Some h -> asciiString a) ->
     exists entries : list (string * H),
       NoDup (map fst entries) /\
       (forall a h, In (a, h) entries <->
                    handlers d !! a = Some h /\ oscMatches (Address msg) a) /\
       Dispatch d (Some (PMessage msg))
         = Some (Ok (map (fun ah => (snd ah, msg)) entries))) /\
  (forall (handler : H) (args : list Argument) (from : option NetAddr),
     let msg := mkMessage "/a/b" args from in
     Dispatch (mkDispatcher {[ "/a/b"%string := handler ]}) (Some (PMessage msg))
       = Some (Ok [(handler, msg)])) /\
  (forall (h1 h2 h3 : H) (args : list Argument) (from : option NetAddr),
     let msg := mkMessage "/a/{b,c}" args from in
     let d := mkDispatcher (<["/a/b"%string := h1]>
                              (<["/a/c"%string := h2]> {[ "/a/d"%string := h3 ]})) in
     exists calls, Dispatch d (Some (PMessage msg)) = Some (Ok calls) /\
                   Permutation calls [(h1, msg); (h2, msg)]) /\
  (forall (h1 h2 : H) (args : list Argument) (from : option NetAddr),
     let msg := mkMessage "/[a-c]" args from in
     let d := mkDispatcher (<["/a"%string := h1]> {[ "/d"%string := h2 ]}) in
     Dispatch d (Some (PMessage msg)) = Some (Ok [(h1, msg)])).
Proof.
  split; [exact Dispatch_entries|].
  split; [exact getRegEx_expr_translation|].
  split; [exact Match_flat|].
  split.
  { intros d msg Hflat Hlen Hascii.
    destruct (Dispatch_entries d msg) as (entries & Hnd & Hin & Hrun).
    { intros a h Hl. destruct (Match_flat msg a Hflat Hlen (Hascii a h Hl)) as (b & Hb & _).
      eauto. }
    exists entries. split; [exact Hnd|]. split; [|exact Hrun].
    intros a h. rewrite Hin. split; intros [Hl Hm]; (split; [exact Hl|]).
    - destruct (Match_flat msg a Hflat Hlen (Hascii a h Hl)) as (b & Hb & Hiff).
      apply Hiff. congruence.
    - destruct (Match_flat msg a Hflat Hlen (Hascii a h Hl)) as (b & Hb & Hiff).
      apply Hiff in Hm. now subst b. }
  split.
  { intros handler args from msg. cbn [Dispatch handlers].
    rewrite map_to_list_singleton. cbn [dispatchTo].
    assert (Hm : Match msg "/a/b" = Some (Ok true)) by (vm_compute; reflexivity).
    now rewrite Hm. }
  split.
  { intros h1 h2 h3 args from msg d. eexists. split; [vm_compute; reflexivity|].
    first [reflexivity | apply perm_swap]. }
  intros h1 h2 args from msg d. vm_compute. reflexivity.
Qed.

Lemma Dispatch_message_witness :
  let msg := NewMessage "/a/*" [AInt32 1] in
  let d := mkDispatcher (<["/a/b"%string := 1%nat]> (<["/c"%string := 2%nat]> ∅)) in
  exists entries : list (string * nat),
    NoDup (map fst entries) /\
    (forall a h, In (a, h) entries <-> handlers d !! a = Some h /\ oscMatches "/a/*" a) /\
    Dispatch d (Some (PMessage msg)) = Some (Ok (map (fun ah => (snd ah, msg)) entries)).
Proof.
  intros msg d.
  apply (proj1 (proj2 (proj2 (proj2 (@Dispatch_message nat)))) d msg).
  - reflexivity.
  - cbn. lia.
  - intros a h Hl. apply elem_of_map_to_list, list_elem_of_In in Hl.
    vm_compute in Hl. destruct Hl as [Hl|[Hl|[]]]; injection Hl as <- <-; reflexivity.
Defined.


(** *** The reader never invents or loses bytes *)

Lemma defaultBufSize_pos : (0 < bufio.defaultBufSize)%nat.
Proof. apply Nat.ltb_lt. vm_compute. reflexivity. Qed.

#[local] Opaque bufio.defaultBufSize.

Lemma fill_remaining (r : bufio.Reader) : bufio.remaining (bufio.fill r) = bufio.remaining r.
Proof.
  unfold bufio.fill, bufio.remaining. cbn [bufio.buffered bufio.source].
  now rewrite <- app_assoc, firstn_skipn.
Qed.

Lemma firstn_nonempty {A : Type} (k : nat) (l : list A) :
  (0 < k)%nat -> l <> [] -> firstn k l <> [].
Proof. destruct k, l; cbn; intros; try lia; congruence. Qed.

Lemma Peek1_stream (r : bufio.Reader) :
  bufio.remaining (snd (bufio.Peek1 r)) = bufio.remaining r /\
  (forall c, fst (bufio.Peek1 r) = Ok c -> exists tl, bufio.remaining r = c :: tl).
Proof.
  unfold bufio.Peek1, bufio.remaining. destruct r as [buf src]. cbn [bufio.buffered bufio.source].
  destruct buf as [|b buf]; cbn [fst snd bufio.buffered bufio.source].
  - destruct src as [|s src]; cbn [fst snd].
    + split; [reflexivity | discriminate].
    + split; [apply (fill_remaining (bufio.mkReader [] (s :: src)))|].
      intros c [= <-]. eauto.
  - split; [reflexivity|]. intros c [= <-]. cbn. eauto.
Qed.

(** [Read] hands out a prefix of the unread bytes; it is not empty when
    bytes were asked for. *)
Lemma Read_stream (n : nat) (r : bufio.Reader) :
  match bufio.Read n r with
  | (Ok bs, r') => bufio.remaining r = bs ++ bufio.remaining r' /\
                   (List.length bs <= n)%nat /\ ((0 < n)%nat -> bs <> [])
  | (Err _, r') => r' = r
  | (Panic _, _) => False
  end.
Proof.
  unfold bufio.Read, bufio.remaining. destruct r as [buf src].
  cbn [bufio.buffered bufio.source].
  destruct n as [|n]; [cbn; split; [reflexivity|split; [lia|lia]]|].
  destruct buf as [|b buf].
  - destruct src as [|s src]; [reflexivity|].
    destruct (bufio.defaultBufSize <=? S n)%nat.
    + cbn [bufio.buffered bufio.source app].
      split; [now rewrite firstn_skipn|]. split; [apply firstn_le_length|].
      intros _. cbn. discriminate.
    + cbn [bufio.fill bufio.buffered bufio.source app].
      rewrite Nat.sub_0_r.
      split; [now rewrite app_assoc, !firstn_skipn|].
      split; [apply firstn_le_length|]. intros _.
      apply firstn_nonempty; [lia|]. apply firstn_nonempty; [apply defaultBufSize_pos|discriminate].
  - cbn [bufio.buffered bufio.source].
    split; [now rewrite app_assoc, firstn_skipn|].
    split; [apply firstn_le_length|]. intros _. cbn. discriminate.
Qed.

Lemma IndexByte_Some (b : bytes) (c : byte) (i : nat) :
  bufio.IndexByte b c = Some i ->
  (i < List.length b)%nat /\ nth_error b i = Some c /\ ~ In c (firstn i b).
Proof.
  revert i. induction b as [|x b IH]; intros i; cbn [bufio.IndexByte]; [discriminate|].
  destruct (Ascii.eqb_spec x c) as [->|Hne].
  - intros [= <-]. cbn. split; [lia|]. split; [reflexivity|tauto].
  - destruct (bufio.IndexByte b c) as [j|]; [|discriminate].
    intros [= <-]. destruct (IH j eq_refl) as (Hlt & Hnth & Hnot).
    cbn. split; [lia|]. split; [exact Hnth|]. intros [H|H]; [congruence|tauto].
Qed.

Lemma IndexByte_None (b : bytes) (c : byte) :
  bufio.IndexByte b c = None -> ~ In c b.
Proof.
  induction b as [|x b IH]; cbn [bufio.IndexByte In]; [tauto|].
  destruct (Ascii.eqb_spec x c) as [->|Hne]; [discriminate|].
  destruct (bufio.IndexByte b c) as [j|]; [discriminate|].
  intros _ [H|H]; [congruence | now apply IH].
Qed.

Lemma firstn_S_nth {A : Type} (l : list A) (i : nat) (x : A) :
  nth_error l i = Some x -> firstn (S i) l = firstn i l ++ [x].
Proof.
  revert i. induction l as [|y l IH]; intros [|i]; cbn; try discriminate.
  - now intros [= ->].
  - intros H. now rewrite <- (IH i H).
Qed.

Lemma not_In_app {A : Type} (x : A) (l1 l2 : list A) :
  ~ In x l1 -> ~ In x l2 -> ~ In x (l1 ++ l2).
Proof. intros H1 H2 H. apply in_app_or in H. tauto. Qed.

(** [ReadString]: either the line up to and including the first delimiter of
    the unread bytes, which are consumed, or, when there is no delimiter,
    everything with [io.EOF].  The rounds never run out. *)
Lemma ReadString_loop_spec (fuel : nat) (delim : byte) :
  forall (acc : bytes) (r : bufio.Reader),
    (List.length (bufio.source r) <= fuel)%nat ->
    match bufio.ReadString_loop fuel delim acc r with
    | ((bs, None), r') =>
        exists line, bs = acc ++ line ++ [delim] /\ ~ In delim line /\
                     bufio.remaining r = line ++ delim :: bufio.remaining r'
    | ((bs, Some e), r') =>
        e = EOF /\ bs = acc ++ bufio.remaining r /\ ~ In delim (bufio.remaining r) /\
        bufio.remaining r' = []
    end.
Proof.
  induction fuel as [|fuel IH]; intros acc [buf src] Hfuel;
    cbn [bufio.ReadString_loop bufio.buffered bufio.source] in *.
  - destruct (bufio.IndexByte buf delim) as [i|] eqn:Hi.
    + destruct (IndexByte_Some _ _ _ Hi) as (Hlt & Hnth & Hnot).
      exists (firstn i buf). rewrite (firstn_S_nth _ _ _ Hnth).
      split; [reflexivity|]. split; [exact Hnot|].
      unfold bufio.remaining. cbn [bufio.buffered bufio.source].
      rewrite <- (firstn_skipn (S i) buf) at 1. rewrite (firstn_S_nth _ _ _ Hnth).
      now rewrite <- !app_assoc.
    + destruct src; [|cbn in Hfuel; lia].
      unfold bufio.remaining. cbn [bufio.buffered bufio.source]. rewrite app_nil_r.
      repeat split; auto using IndexByte_None.
  - destruct (bufio.IndexByte buf delim) as [i|] eqn:Hi.
    + destruct (IndexByte_Some _ _ _ Hi) as (Hlt & Hnth & Hnot).
      exists (firstn i buf). rewrite (firstn_S_nth _ _ _ Hnth).
      split; [reflexivity|]. split; [exact Hnot|].
      unfold bufio.remaining. cbn [bufio.buffered bufio.source].
      rewrite <- (firstn_skipn (S i) buf) at 1. rewrite (firstn_S_nth _ _ _ Hnth).
      now rewrite <- !app_assoc.
    + apply IndexByte_None in Hi.
      destruct src as [|s src].
      { unfold bufio.remaining. cbn [bufio.buffered bufio.source]. rewrite app_nil_r.
        repeat split; auto. }
      pose proof defaultBufSize_pos as Hpos.
      destruct (Nat.leb_spec bufio.defaultBufSize (List.length buf)) as [Hfull|Hroom].
      * specialize (IH (acc ++ buf) (bufio.fill (bufio.mkReader [] (s :: src)))).
        rewrite fill_remaining in IH.
        unfold bufio.remaining in *. cbn [bufio.buffered bufio.source app] in *.
        destruct (bufio.ReadString_loop fuel delim (acc ++ buf) _) as [[bs [e|]] r'].
        -- destruct IH as (-> & -> & Hno & Hr').
           { unfold bufio.fill. cbn [bufio.buffered bufio.source List.length].
             rewrite length_skipn. cbn [List.length] in *. lia. }
           rewrite <- app_assoc. repeat split; auto using not_In_app.
        -- destruct IH as (line & -> & Hno & Hsrc).
           { unfold bufio.fill. cbn [bufio.buffered bufio.source List.length].
             rewrite length_skipn. cbn [List.length] in *. lia. }
           exists (buf ++ line). rewrite <- !app_assoc.
           split; [reflexivity|]. split; [now apply not_In_app|].
           now rewrite Hsrc.
      * specialize (IH acc (bufio.fill (bufio.mkReader buf (s :: src)))).
        rewrite fill_remaining in IH. apply IH.
        unfold bufio.fill. cbn [bufio.buffered bufio.source].
        rewrite length_skipn. cbn [List.length] in *. lia.
Qed.

Lemma ReadString_spec (delim : byte) (r : bufio.Reader) :
  match bufio.ReadString delim r with
  | ((bs, None), r') =>
      exists line, bs = line ++ [delim] /\ ~ In delim line /\
                   bufio.remaining r = line ++ delim :: bufio.remaining r'
  | ((bs, Some e), r') =>
      e = EOF /\ bs = bufio.remaining r /\ ~ In delim (bufio.remaining r) /\
      bufio.remaining r' = []
  end.
Proof. apply (ReadString_loop_spec _ delim [] r). lia. Qed.

Lemma ReadFull_loop_stream (fuel : nat) :
  forall (want : nat) (acc : bytes) (r : bufio.Reader),
    (want <= fuel)%nat ->
    match io.ReadFull_loop fuel want acc r with
    | (Ok bs, r') =>
        exists got, bs = acc ++ got /\ List.length got = want /\
                    bufio.remaining r = got ++ bufio.remaining r'
    | (Err _, r') => (unread r' <= unread r)%nat
    | (Panic _, _) => False
    end.
Proof.
  induction fuel as [|fuel IH]; intros want acc r Hfuel.
  - destruct want; [|lia]. cbn. exists []. now rewrite app_nil_r.
  - destruct want as [|want]; [cbn; exists []; now rewrite app_nil_r|].
    cbn [io.ReadFull_loop].
    pose proof (Read_stream (S want) r) as HR.
    destruct (bufio.Read (S want) r) as [[bs|e|p] r1]; [| |destruct HR].
    + destruct HR as (Hrem & Hlen & Hne).
      assert (Hpos : (0 < List.length bs)%nat).
      { destruct bs; [now destruct (Hne ltac:(lia))|cbn; lia]. }
      specialize (IH (S want - List.length bs)%nat (acc ++ bs) r1 ltac:(lia)).
      destruct (io.ReadFull_loop fuel _ (acc ++ bs) r1) as [[bs'|e|p] r'].
      * destruct IH as (got & -> & Hgot & Hrem1).
        exists (bs ++ got). rewrite <- !app_assoc, length_app.
        split; [reflexivity|]. split; [lia|]. now rewrite Hrem, Hrem1.
      * unfold unread in *. rewrite Hrem, length_app. lia.
      * exact IH.
    + subst r1. destruct acc; destruct e; cbn; unfold unread; lia.
Qed.

Lemma binary_Read_stream (k : binary.kind) (r : bufio.Reader) :
  match binary.Read k r with
  | (Ok _, r') => exists n, binary.dataSize k = Some n /\ (unread r' + n = unread r)%nat
  | (Err _, r') => (unread r' <= unread r)%nat
  | (Panic _, _) => False
  end.
Proof.
  unfold binary.Read. destruct (binary.dataSize k) as [n|]; [|cbn; lia].
  unfold bind, io.ReadFull, ret.
  pose proof (ReadFull_loop_stream n n [] r (le_n n)) as HR.
  destruct (io.ReadFull_loop n n [] r) as [[bs|e|p] r']; [|exact HR|exact HR].
  destruct HR as (got & _ & Hlen & Hrem). exists n. split; [reflexivity|].
  unfold unread. rewrite Hrem, length_app. lia.
Qed.

Lemma readPaddedString_stream (r : bufio.Reader) :
  match readPaddedString r with
  | (Ok _, r') => (unread r' < unread r)%nat
  | (Err _, r') => (unread r' <= unread r)%nat
  | (Panic _, _) => False
  end.
Proof.
  unfold readPaddedString.
  pose proof (ReadString_spec NUL r) as HS.
  destruct (bufio.ReadString NUL r) as [[str [e|]] r1].
  - destruct HS as (_ & _ & _ & Hr1). unfold unread. rewrite Hr1. cbn [List.length]. lia.
  - destruct HS as (line & _ & _ & Hrem).
    assert (H1 : (unread r1 < unread r)%nat).
    { unfold unread. rewrite Hrem, length_app. cbn [List.length]. unfold byte. lia. }
    destruct (0 <? _); [|exact H1].
    match goal with |- context [bufio.Read ?n r1] => pose proof (Read_stream n r1) as HR;
      destruct (bufio.Read n r1) as [[bs|e|p] r2] end.
    + destruct HR as (Hrem1 & _). unfold unread in *. rewrite Hrem1, length_app in H1. lia.
    + subst r2. lia.
    + exact HR.
Qed.

Lemma onReader_inv {A : Type} (m : M bufio.Reader A) (st st' : Cursor) (o : outcome A) :
  onReader m st = (o, st') -> m (reader st) = (o, reader st') /\ start st' = start st.
Proof.
  unfold onReader. destruct (m (reader st)) as [o' r']. intros [= <- <-]. split; reflexivity.
Qed.

Lemma bind_panic {S A B : Type} (m : M S A) (k : A -> M S B) (s : S) (p : panic) :
  fst (bind m k s) = Panic p ->
  fst (m s) = Panic p \/ exists a s', m s = (Ok a, s') /\ fst (k a s') = Panic p.
Proof.
  unfold bind. destruct (m s) as [[a|e|q] s']; cbn [fst]; intros H.
  - right. eauto.
  - discriminate.
  - left. now injection H as ->.
Qed.

Lemma shrinks_bind {A B : Type} (m : M Cursor A) (k : A -> M Cursor B) :
  shrinks m -> (forall a, shrinks (k a)) -> shrinks (bind m k).
Proof.
  intros Hm Hk st. unfold bind. specialize (Hm st).
  destruct (m st) as [[a|e|p] st']; cbn [snd] in *; [|exact Hm|exact Hm].
  specialize (Hk a st'). lia.
Qed.

Lemma shrinks_ret {A : Type} (a : A) : shrinks (ret a).
Proof. intros st. cbn. lia. Qed.

Lemma shrinks_advance (n : Z) : shrinks (advance n).
Proof. intros st. cbn. unfold unreadAt. cbn. lia. Qed.

Lemma shrinks_onReader {A : Type} (m : M bufio.Reader A) :
  (forall r, (unread (snd (m r)) <= unread r)%nat) -> shrinks (onReader m).
Proof.
  intros Hm st. unfold onReader, unreadAt. specialize (Hm (reader st)).
  destruct (m (reader st)) as [o r']. exact Hm.
Qed.

Lemma binary_Read_shrinks (k : binary.kind) : shrinks (onReader (binary.Read k)).
Proof.
  apply shrinks_onReader. intros r. pose proof (binary_Read_stream k r) as H.
  destruct (binary.Read k r) as [[v|e|p] r']; cbn [snd]; [|exact H|destruct H].
  destruct H as (n & _ & H). lia.
Qed.

Lemma readPaddedString_shrinks : shrinks (onReader readPaddedString).
Proof.
  apply shrinks_onReader. intros r. pose proof (readPaddedString_stream r) as H.
  destruct (readPaddedString r) as [[v|e|p] r']; cbn [snd]; [lia|exact H|destruct H].
Qed.

Lemma readBlob_shrinks : shrinks (onReader readBlob).
Proof. apply shrinks_onReader. intros r. rewrite readBlob_unfold. cbn. lia. Qed.

Lemma readArgument_shrinks (c : byte) (msg : Message) : shrinks (readArgument c msg).
Proof.
  unfold readArgument.
  repeat match goal with
  | |- shrinks (if ?b then _ else _) => destruct b
  | |- shrinks (bind _ _) => apply shrinks_bind; [|intros]
  | |- shrinks (match ?x with (_, _) => _ end) => destruct x
  | |- shrinks (onReader (binary.Read _)) => apply binary_Read_shrinks
  | |- shrinks (onReader readPaddedString) => apply readPaddedString_shrinks
  | |- shrinks (onReader readBlob) => apply readBlob_shrinks
  | |- shrinks (advance _) => apply shrinks_advance
  | |- shrinks (ret _) => apply shrinks_ret
  end.
  - intros st. pose proof (binary_Read_shrinks binary.Uint64 st) as H.
    destruct (onReader (binary.Read binary.Uint64) st) as [[v|e|p] st']; cbn [snd] in *;
      exact H.
  - intros st. cbn. lia.
Qed.

Lemma readArguments_loop_shrinks (typetags : bytes) :
  forall msg, shrinks (readArguments_loop typetags msg).
Proof.
  induction typetags as [|c rest IH]; intros msg; cbn [readArguments_loop].
  - apply shrinks_ret.
  - apply shrinks_bind; [apply readArgument_shrinks|].
    intros [m|m]; [apply IH | apply shrinks_ret].
Qed.

Lemma readMessage_shrinks : shrinks readMessage.
Proof.
  unfold readMessage, readArguments.
  apply shrinks_bind; [apply readPaddedString_shrinks|]. intros [a n].
  apply shrinks_bind; [apply shrinks_advance|]. intros _.
  apply shrinks_bind; [apply readPaddedString_shrinks|]. intros [typetags n'].
  apply shrinks_bind; [apply shrinks_advance|]. intros _.
  destruct typetags as [|c0 tags]; [intros st; cbn; lia|].
  destruct (negb (Ascii.eqb c0 ",")); [intros st; cbn; lia|].
  apply readArguments_loop_shrinks.
Qed.

Lemma Peek1_shrinks : shrinks (onReader bufio.Peek1).
Proof.
  apply shrinks_onReader. intros r. unfold unread.
  rewrite (proj1 (Peek1_stream r)). lia.
Qed.

Lemma readPacket_shrinks (fuel : nat) :
  forall end_,
    shrinks (readPacket fuel end_) /\
    shrinks (readBundle fuel end_) /\
    (forall bundle, shrinks (readBundle_loop fuel end_ bundle)).
Proof.
  induction fuel as [|fuel IH]; intros end_.
  - split; [|split]; intros; intros st; cbn; lia.
  - destruct (IH end_) as (IHp & IHb & IHl).
    split; [|split]; cbn [readPacket readBundle readBundle_loop].
    + apply shrinks_bind; [apply Peek1_shrinks|]. intros buf0.
      destruct (Ascii.eqb buf0 "/").
      { apply shrinks_bind; [apply readMessage_shrinks | intros; apply shrinks_ret]. }
      destruct (Ascii.eqb buf0 "#"); [|apply shrinks_ret].
      apply shrinks_bind; [apply IHb | intros; apply shrinks_ret].
    + apply shrinks_bind; [apply readPaddedString_shrinks|]. intros [startTag n].
      apply shrinks_bind; [apply shrinks_advance|]. intros _.
      destruct (negb (String.eqb startTag bundleTag)); [intros st; cbn; lia|].
      apply shrinks_bind; [apply binary_Read_shrinks|]. intros timeTag.
      apply shrinks_bind; [apply shrinks_advance|]. intros _. apply IHl.
    + intros bundle st. destruct (start st <? end_); [|cbn; lia].
      revert st. apply shrinks_bind; [apply binary_Read_shrinks|]. intros length.
      apply shrinks_bind; [apply shrinks_advance|]. intros _.
      apply shrinks_bind; [apply IHp|]. intros pkt.
      apply shrinks_bind; [|intros; apply IHl].
      intros st. unfold pure. cbn [snd]. lia.
Qed.

(** *** The recursion bound of [readPacket] is never met *)

Lemma ends_not_exhausted {A : Type} (m : M Cursor A) (st : Cursor) :
  ends plain indexOnly m -> fst (m st) <> Panic StackExhausted.
Proof. intros Hm H. specialize (Hm st). rewrite H in Hm. discriminate Hm. Qed.

Lemma onReader_unread {A : Type} (m : M bufio.Reader A) (st st' : Cursor) (o : outcome A) :
  onReader m st = (o, st') -> m (reader st) = (o, reader st').
Proof. intros H. now apply onReader_inv in H. Qed.

Lemma readPacket_fuel (fuel : nat) :
  forall end_,
    (forall st, (unreadAt st < fuel)%nat ->
                fst (readPacket fuel end_ st) <> Panic StackExhausted) /\
    (forall st, (0 < unreadAt st <= fuel)%nat ->
                fst (readBundle fuel end_ st) <> Panic StackExhausted) /\
    (forall bundle st, (unreadAt st < fuel)%nat ->
                fst (readBundle_loop fuel end_ bundle st) <> Panic StackExhausted).
Proof.
  induction fuel as [|fuel IH]; intros end_.
  - split; [|split]; intros; lia.
  - destruct (IH end_) as (IHp & IHb & IHl).
    split; [|split]; cbn [readPacket readBundle readBundle_loop].
    + intros st Hst H.
      apply bind_panic in H. destruct H as [H|(buf0 & st1 & HP & H)].
      { revert H. apply ends_not_exhausted, ends_plain_reader with (PE := fun e => e = EOF).
        - now intros e ->.
        - intros r. unfold bufio.Peek1.
          destruct (bufio.buffered r); [|exact I].
          destruct (bufio.source r); [reflexivity | exact I]. }
      apply onReader_unread in HP.
      destruct (Peek1_stream (reader st)) as [Hsame Hhead].
      rewrite HP in Hsame, Hhead. cbn [fst snd] in *.
      destruct (Hhead buf0 eq_refl) as (tl & Htl).
      assert (Hst1 : (0 < unreadAt st1 <= fuel)%nat).
      { unfold unreadAt, unread in *. rewrite Hsame, Htl in *. cbn [List.length] in *. lia. }
      destruct (Ascii.eqb buf0 "/").
      { apply bind_panic in H. destruct H as [H|(pkt & st2 & _ & H)]; [|discriminate H].
        revert H. apply ends_not_exhausted, readMessage_plain. }
      destruct (Ascii.eqb buf0 "#"); [|discriminate H].
      apply bind_panic in H. destruct H as [H|(pkt & st2 & _ & H)]; [|discriminate H].
      revert H. now apply IHb.
    + intros st Hst H.
      apply bind_panic in H. destruct H as [H|([startTag n] & st1 & HP & H)].
      { revert H. apply ends_not_exhausted, readPaddedString_plain. }
      apply onReader_unread in HP.
      pose proof (readPaddedString_stream (reader st)) as Hs. rewrite HP in Hs.
      apply bind_panic in H. destruct H as [H|([] & st2 & Hadv & H)]; [discriminate H|].
      injection Hadv as <-.
      destruct (negb (String.eqb startTag bundleTag)); [discriminate H|].
      apply bind_panic in H. destruct H as [H|(timeTag & st3 & HR & H)].
      { revert H. apply ends_not_exhausted, binary_Read_plain. }
      apply onReader_unread in HR. cbn [reader] in HR.
      pose proof (binary_Read_stream binary.Uint64 (reader st1)) as Hb. rewrite HR in Hb.
      destruct Hb as (k & [= <-] & Hb).
      apply bind_panic in H. destruct H as [H|([] & st4 & Hadv & H)]; [discriminate H|].
      injection Hadv as <-.
      revert H. apply IHl. unfold unreadAt in *. cbn [reader]. lia.
    + intros bundle st Hst. destruct (start st <? end_); [|cbn; discriminate].
      intros H.
      apply bind_panic in H. destruct H as [H|(length & st1 & HR & H)].
      { revert H. apply ends_not_exhausted, binary_Read_plain. }
      apply onReader_unread in HR.
      pose proof (binary_Read_stream binary.Int32 (reader st)) as Hb. rewrite HR in Hb.
      destruct Hb as (k & [= <-] & Hb).
      apply bind_panic in H. destruct H as [H|([] & st2 & Hadv & H)]; [discriminate H|].
      injection Hadv as <-.
      apply bind_panic in H. destruct H as [H|(pkt & st3 & HP & H)].
      { revert H. apply IHp. unfold unreadAt in *. cbn [reader]. lia. }
      pose proof (proj1 (readPacket_shrinks fuel end_)
                    (mkCursor (reader st1) (int_add (start st1) 4))) as Hsh.
      rewrite HP in Hsh. cbn [snd] in Hsh.
      apply bind_panic in H. destruct H as [H|(bundle' & st4 & Happ & H)].
      { unfold pure in H. cbn [fst] in H.
        destruct bundle as [t ms bs a0]. destruct pkt as [[m|b]|]; discriminate H. }
      unfold pure in Happ. injection Happ as _ <-.
      revert H. apply IHl. unfold unreadAt in *. cbn [reader] in *. lia.
Qed.

(** [ParsePacket] and [ReceivePacket] give [readPacket] more fuel than
    there are bytes: they never end on the recursion bound. *)
Lemma ParsePacket_fuel (msg : string) : ParsePacket msg <> Panic StackExhausted.
Proof.
  unfold ParsePacket.
  apply (proj1 (readPacket_fuel _ _)).
  unfold unreadAt, unread, bufio.remaining, fuel_for. cbn. lia.
Qed.

Lemma ReceivePacket_fuel (step : conn_step) : ReceivePacket step <> Panic StackExhausted.
Proof.
  destruct step as [e|e|payload from]; cbn [ReceivePacket]; try discriminate.
  match goal with
  | |- context [fst (readPacket ?f ?n ?st)] =>
      pose proof (proj1 (readPacket_fuel f n) st) as Hf;
      destruct (fst (readPacket f n st)) as [[pkt|]|e|p]
  end; try discriminate.
  intros [= ->]. apply Hf; [|reflexivity].
  unfold unreadAt, unread, bufio.remaining, fuel_for. cbn [reader bufio.NewReader bufio.buffered bufio.source app]. lia.
Qed.
